(** * ccap: a command-line argument parser (src/ccap.h)

    A shallow embedding of the two classes of [ccap.h], [Argument] and
    [Args], and of the parsing algorithm [Args::Parse] with its two
    helpers [ReadLongArg] and [ReadShortArg].

    - [std::string] is [string]; [char] is [ascii]; [int] is [Z].
    - A member function that mutates [*this] takes the object and returns
      the updated one.
    - The process-level effects of the library (writing to [std::cout] and
      [std::cerr], [exit], [throw], and indexing a vector or a string out
      of range) are the effects of a small monad [M]: a computation reads
      and extends the two output streams and ends in an [outcome]. *)

From Stdlib Require Import ZArith List String Ascii Bool Lia.
Import ListNotations.

Local Open Scope Z_scope.

Notation "a +++ b" := (String.append a b)
  (at level 60, right associativity).

(* ------------------------------------------------------------------ *)
(** ** Strings *)

Module Str.

(** '\n' *)
Definition nl : string := String (ascii_of_nat 10) EmptyString.

(** '\0', the value of a default-initialised [char] *)
Definition nul : ascii := Ascii.zero.

Definition size (s : string) : nat := String.length s.

(** [s.starts_with(p)] *)
Definition starts_with (p s : string) : bool := String.prefix p s.

(** [s.substr(pos)]: the suffix from [pos]; [None] stands for the
    [std::out_of_range] it throws when [pos > s.size()]. *)
Fixpoint substr (pos : nat) (s : string) : option string :=
  match pos with
  | O => Some s
  | S p =>
      match s with
      | EmptyString => None
      | String _ t => substr p t
      end
  end.

(** [s[pos]]: the character at [pos]; at [pos == s.size()] it is the
    terminating '\0'; beyond that the access is undefined ([None]). *)
Definition at_ (s : string) (pos : nat) : option ascii :=
  match String.get pos s with
  | Some c => Some c
  | None => if Nat.eqb pos (size s) then Some nul else None
  end.

End Str.

(* ------------------------------------------------------------------ *)
(** ** Effects *)

(** What a [throw] carries: [Terminate] throws a string literal (a
    [const char*]); [substr] throws [std::out_of_range]. *)
Inductive exception : Type :=
| CString (what : string)
| StdOutOfRange.

(** How a call ends: it returns, the process exits with a status, an
    exception propagates, or a container is indexed out of range. *)
Inductive outcome (A : Type) : Type :=
| Returns (a : A)
| Exits (status : Z)
| Throws (e : exception)
| OutOfBounds.

Arguments Returns {A} a.
Arguments Exits {A} status.
Arguments Throws {A} e.
Arguments OutOfBounds {A}.

(** The text written so far to [std::cout] and [std::cerr]. *)
Record io : Type := mkIO { cout : string; cerr : string }.

Definition M (A : Type) : Type := io -> outcome A * io.

Definition ret {A} (a : A) : M A := fun w => (Returns a, w).

Definition bind {A B} (m : M A) (k : A -> M B) : M B :=
  fun w =>
    match m w with
    | (Returns a, w') => k a w'
    | (Exits s, w') => (Exits s, w')
    | (Throws e, w') => (Throws e, w')
    | (OutOfBounds, w') => (OutOfBounds, w')
    end.

Notation "x <- m ;; k" := (bind m (fun x => k))
  (at level 61, m at next level, right associativity).
Notation "m ;;; k" := (bind m (fun _ => k))
  (at level 61, right associativity).

(** [std::cout << s] *)
Definition print_out (s : string) : M unit :=
  fun w => (Returns tt, mkIO (cout w +++ s) (cerr w)).

(** [std::cerr << s] *)
Definition print_err (s : string) : M unit :=
  fun w => (Returns tt, mkIO (cout w) (cerr w +++ s)).

(** [exit(status)] *)
Definition exit {A} (status : Z) : M A := fun w => (Exits status, w).

Definition throw {A} (e : exception) : M A := fun w => (Throws e, w).

Definition out_of_bounds {A} : M A := fun w => (OutOfBounds, w).

Definition EXIT_FAILURE : Z := 1.

(** An [int] converted to [size_t] for a comparison with [size()]. *)
Definition to_size_t (z : Z) : Z := z mod 2 ^ 64.

Definition INT_MAX : Z := 2147483647.

(** [v[i]] on a [std::vector]: undefined outside [0 <= i < size()]. *)
Definition index {A} (v : list A) (i : Z) : M A :=
  if i <? 0 then out_of_bounds
  else match nth_error v (Z.to_nat i) with
       | Some x => ret x
       | None => out_of_bounds
       end.

(* ------------------------------------------------------------------ *)
(** ** class Argument *)

Inductive TerminationType : Type := Exit | Exception.

Module Argument.

Record t : Type := mk {
  name_ : string;
  long_ : string;
  short_ : ascii;
  value_ : string;
  required_ : bool;
  expects_value_ : bool;
  is_option_ : bool;
  is_given_ : bool
}.

(** [Argument(name)]: the member initialisers of the class. *)
Definition WithName (name : string) : t :=
  {| name_ := name; long_ := EmptyString; short_ := Str.nul;
     value_ := EmptyString;
     required_ := false; expects_value_ := false;
     is_option_ := true; is_given_ := false |}.

Definition GetName (a : t) : string := name_ a.
Definition GetShort (a : t) : ascii := short_ a.
Definition GetLong (a : t) : string := long_ a.

Definition SetShort (s : ascii) (a : t) : t :=
  {| name_ := name_ a; long_ := long_ a; short_ := s;
     value_ := value_ a; required_ := required_ a;
     expects_value_ := expects_value_ a;
     is_option_ := is_option_ a; is_given_ := is_given_ a |}.

Definition SetLong (l : string) (a : t) : t :=
  {| name_ := name_ a; long_ := l; short_ := short_ a;
     value_ := value_ a; required_ := required_ a;
     expects_value_ := expects_value_ a;
     is_option_ := is_option_ a; is_given_ := is_given_ a |}.

Definition SetValue (value : string) (a : t) : t :=
  {| name_ := name_ a; long_ := long_ a; short_ := short_ a;
     value_ := value; required_ := required_ a;
     expects_value_ := expects_value_ a;
     is_option_ := is_option_ a; is_given_ := is_given_ a |}.

(** [std::optional<std::string>]: the value when it is not empty. *)
Definition GetValue (a : t) : option string :=
  if (0 <? Z.of_nat (Str.size (value_ a))) then Some (value_ a) else None.

Definition has_value (o : option string) : bool :=
  match o with Some _ => true | None => false end.

Definition ExpectsValue (a : t) : t :=
  {| name_ := name_ a; long_ := long_ a; short_ := short_ a;
     value_ := value_ a; required_ := required_ a;
     expects_value_ := true;
     is_option_ := false; is_given_ := is_given_ a |}.

Definition IsExpectingValue (a : t) : bool := expects_value_ a.

Definition Required (a : t) : t :=
  {| name_ := name_ a; long_ := long_ a; short_ := short_ a;
     value_ := value_ a; required_ := true;
     expects_value_ := expects_value_ a;
     is_option_ := is_option_ a; is_given_ := is_given_ a |}.

Definition IsRequired (a : t) : bool := required_ a.
Definition IsOption (a : t) : bool := is_option_ a.
Definition IsGiven (a : t) : bool := is_given_ a.

Definition SetGiven (value : bool) (a : t) : t :=
  {| name_ := name_ a; long_ := long_ a; short_ := short_ a;
     value_ := value_ a; required_ := required_ a;
     expects_value_ := expects_value_ a;
     is_option_ := is_option_ a; is_given_ := value |}.

(** The public member functions that change an argument. *)
Inductive op : Type :=
| OpSetShort (s : ascii)
| OpSetLong (l : string)
| OpSetValue (v : string)
| OpExpectsValue
| OpRequired
| OpSetGiven (b : bool).

Definition apply (o : op) (a : t) : t :=
  match o with
  | OpSetShort s => SetShort s a
  | OpSetLong l => SetLong l a
  | OpSetValue v => SetValue v a
  | OpExpectsValue => ExpectsValue a
  | OpRequired => Required a
  | OpSetGiven b => SetGiven b a
  end.

(** A sequence of calls, the first of the list first. *)
Definition run (ops : list op) (a : t) : t :=
  fold_left (fun acc o => apply o acc) ops a.

End Argument.

(* ------------------------------------------------------------------ *)
(** ** class Args *)

Module Args.

Import Argument.

Record t : Type := mk {
  raw_args_ : list string;
  args_ : list Argument.t;
  terminateBy_ : TerminationType;
  num_args_ : Z;
  about_ : string;
  author_ : string;
  name_ : string;
  version_ : string
}.

Definition set_args (self : t) (args : list Argument.t) : t :=
  {| raw_args_ := raw_args_ self; args_ := args;
     terminateBy_ := terminateBy_ self; num_args_ := num_args_ self;
     about_ := about_ self; author_ := author_ self;
     name_ := name_ self; version_ := version_ self |}.

(** The loop of the constructor: [raw_args_.push_back(argv[i])] for
    [n] values of [i]. *)
Fixpoint push_raw (argv : list string) (n : nat) (i : Z)
         (raw : list string) : M (list string) :=
  match n with
  | O => ret raw
  | S k =>
      s <- index argv i ;;
      push_raw argv k (i + 1) (raw ++ [s])
  end.

(** [Args(argc, argv)], which [From] calls. *)
Definition From (argc : Z) (argv : list string) : M t :=
  raw <- push_raw argv (Z.to_nat (argc - 1)) 1 [] ;;
  ret {| raw_args_ := raw; args_ := [];
         terminateBy_ := Exit;
         num_args_ := if argc =? 0 then argc else argc - 1;
         about_ := EmptyString; author_ := EmptyString;
         name_ := EmptyString; version_ := "0.0.1"%string |}.

Definition Arg (item : Argument.t) (self : t) : t :=
  set_args self (args_ self ++ [item]).

Fixpoint Get_loop (args : list Argument.t) (arg_name : string)
  : option string :=
  match args with
  | [] => None
  | argument :: rest =>
      if String.eqb (GetName argument) arg_name
      then GetValue argument
      else Get_loop rest arg_name
  end.

Definition Get (self : t) (arg_name : string) : option string :=
  Get_loop (args_ self) arg_name.

Fixpoint IsGiven_loop (args : list Argument.t) (arg_name : string)
  : bool :=
  match args with
  | [] => false
  | argument :: rest =>
      if String.eqb (GetName argument) arg_name
      then Argument.IsOption argument && Argument.IsGiven argument
      else IsGiven_loop rest arg_name
  end.

Definition IsGiven (self : t) (arg_name : string) : bool :=
  IsGiven_loop (args_ self) arg_name.

Definition SetTerminationType (type : TerminationType) (self : t) : t :=
  {| raw_args_ := raw_args_ self; args_ := args_ self;
     terminateBy_ := type; num_args_ := num_args_ self;
     about_ := about_ self; author_ := author_ self;
     name_ := name_ self; version_ := version_ self |}.

Definition SetAbout (about : string) (self : t) : t :=
  {| raw_args_ := raw_args_ self; args_ := args_ self;
     terminateBy_ := terminateBy_ self; num_args_ := num_args_ self;
     about_ := about; author_ := author_ self;
     name_ := name_ self; version_ := version_ self |}.

Definition SetAuthor (author : string) (self : t) : t :=
  {| raw_args_ := raw_args_ self; args_ := args_ self;
     terminateBy_ := terminateBy_ self; num_args_ := num_args_ self;
     about_ := about_ self; author_ := author;
     name_ := name_ self; version_ := version_ self |}.

Definition SetName (name : string) (self : t) : t :=
  {| raw_args_ := raw_args_ self; args_ := args_ self;
     terminateBy_ := terminateBy_ self; num_args_ := num_args_ self;
     about_ := about_ self; author_ := author_ self;
     name_ := name; version_ := version_ self |}.

Definition SetVersion (version : string) (self : t) : t :=
  {| raw_args_ := raw_args_ self; args_ := args_ self;
     terminateBy_ := terminateBy_ self; num_args_ := num_args_ self;
     about_ := about_ self; author_ := author_ self;
     name_ := name_ self; version_ := version |}.

Definition help_message : string := "TODO: Help Message"%string +++ Str.nl.

(** Prints and exits: the call does not return. *)
Definition ShowHelp : M unit :=
  print_out help_message ;;; exit 0.

Definition missing_message (arg : Argument.t) : string :=
  "Error: Missing required value for argument '"%string
    +++ GetName arg +++ "'"%string +++ Str.nl.

Definition Terminate (self : t) (arg : Argument.t) : M unit :=
  match terminateBy_ self with
  | Exit => print_err (missing_message arg) ;;; exit EXIT_FAILURE
  | Exception => throw (CString "Exception")
  end.

(** [if (arg.IsOption()) arg.SetGiven(true);] *)
Definition mark_given (arg : Argument.t) : Argument.t :=
  if Argument.IsOption arg then SetGiven true arg else arg.

(** The [for (auto &arg : args_)] loop of [ReadLongArg]: the list of
    arguments after the loop. *)
Fixpoint ReadLongArg_loop (raw : list string) (raw_arg_index : Z)
         (name : string) (args : list Argument.t)
  : M (list Argument.t) :=
  match args with
  | [] => ret []
  | arg :: rest =>
      if String.eqb (GetLong arg) name then
        arg1 <- (if IsExpectingValue arg
                 then v <- index raw (raw_arg_index + 1) ;;
                      ret (SetValue v arg)
                 else ret arg) ;;
        rest' <- ReadLongArg_loop raw raw_arg_index name rest ;;
        ret (mark_given arg1 :: rest')
      else
        rest' <- ReadLongArg_loop raw raw_arg_index name rest ;;
        ret (arg :: rest')
  end.

Definition ReadLongArg (self : t) (raw_arg_index : Z) : M t :=
  tok <- index (raw_args_ self) raw_arg_index ;;
  match Str.substr 2 tok with
  | None => throw StdOutOfRange
  | Some name =>
      if Nat.eqb (Str.size name) 0 then ret self
      else
        (if String.eqb name "help" then ShowHelp else ret tt) ;;;
        args <- ReadLongArg_loop (raw_args_ self) raw_arg_index name
                  (args_ self) ;;
        ret (set_args self args)
  end.

(** The loop of [ReadShortArg]; its [return] leaves the arguments not
    yet visited as they are. *)
Fixpoint ReadShortArg_loop (raw : list string) (raw_arg_index : Z)
         (shortName : ascii) (args : list Argument.t)
  : M (list Argument.t) :=
  match args with
  | [] => ret []
  | arg :: rest =>
      if Ascii.eqb (GetShort arg) shortName then
        if IsExpectingValue arg then
          if Z.of_nat (List.length raw) <=? to_size_t (raw_arg_index + 1)
          then ret (arg :: rest)
          else
            v <- index raw (raw_arg_index + 1) ;;
            rest' <- ReadShortArg_loop raw raw_arg_index shortName rest ;;
            ret (mark_given (SetValue v arg) :: rest')
        else
          rest' <- ReadShortArg_loop raw raw_arg_index shortName rest ;;
          ret (mark_given arg :: rest')
      else
        rest' <- ReadShortArg_loop raw raw_arg_index shortName rest ;;
        ret (arg :: rest')
  end.

Definition ReadShortArg (self : t) (raw_arg_index : Z) : M t :=
  tok <- index (raw_args_ self) raw_arg_index ;;
  match Str.at_ tok 1 with
  | None => out_of_bounds
  | Some shortName =>
      if Ascii.eqb shortName Str.nul then ret self
      else
        (if Ascii.eqb shortName "h"%char then ShowHelp else ret tt) ;;;
        args <- ReadShortArg_loop (raw_args_ self) raw_arg_index shortName
                  (args_ self) ;;
        ret (set_args self args)
  end.

(** The body of the first loop of [Parse], at index [i]. *)
Definition Parse_token (self : t) (i : Z) : M t :=
  tok <- index (raw_args_ self) i ;;
  if Str.starts_with "--" tok then ReadLongArg self i
  else if Str.starts_with "-" tok then ReadShortArg self i
  else ret self.

(** [n] iterations of the first loop, from index [i]. *)
Fixpoint Parse_scan (n : nat) (i : Z) (self : t) : M t :=
  match n with
  | O => ret self
  | S k =>
      self' <- Parse_token self i ;;
      Parse_scan k (i + 1) self'
  end.

(** The second loop of [Parse] over the arguments [todo]. *)
Fixpoint Parse_check (self : t) (todo : list Argument.t) : M unit :=
  match todo with
  | [] => ret tt
  | arg :: rest =>
      (if IsRequired arg && negb (has_value (GetValue arg))
       then Terminate self arg
       else ret tt) ;;;
      Parse_check self rest
  end.

Definition Parse (self : t) : M t :=
  self' <- Parse_scan (Z.to_nat (num_args_ self)) 0 self ;;
  Parse_check self' (args_ self') ;;;
  ret self'.

End Args.

(* ------------------------------------------------------------------ *)
(** ** Vocabulary of the statements *)

Import Argument Args.

(** The raw token at index [i], when there is one. *)
Definition token (raw : list string) (i : Z) : option string :=
  if i <? 0 then None else nth_error raw (Z.to_nat i).

(** The token count agrees with the stored tokens and fits an [int]:
    what the constructor establishes. *)
Definition well_formed (self : Args.t) : Prop :=
  num_args_ self = Z.of_nat (List.length (raw_args_ self))
  /\ num_args_ self <= INT_MAX.

(** What one visit of the loops of [ReadLongArg] and [ReadShortArg] does
    to an argument that matched, [v] being the next token. *)
Definition take (v : string) (arg : Argument.t) : Argument.t :=
  mark_given (if IsExpectingValue arg then SetValue v arg else arg).

Definition long_edit (name v : string) (arg : Argument.t) : Argument.t :=
  if String.eqb (GetLong arg) name then take v arg else arg.

Definition short_edit (c : ascii) (v : string) (arg : Argument.t)
  : Argument.t :=
  if Ascii.eqb (GetShort arg) c then take v arg else arg.

(** Some argument with long form [name] expects a value. *)
Definition wants_long (name : string) (args : list Argument.t) : bool :=
  existsb (fun a => String.eqb (GetLong a) name && IsExpectingValue a) args.

Definition wants_short (c : ascii) (args : list Argument.t) : bool :=
  existsb (fun a => Ascii.eqb (GetShort a) c && IsExpectingValue a) args.

(** The arguments after [ReadShortArg] found no token to take: options
    with the short form [c] are marked up to the first argument that
    expects a value, which stops the loop. *)
Fixpoint short_abort (c : ascii) (args : list Argument.t)
  : list Argument.t :=
  match args with
  | [] => []
  | arg :: rest =>
      if Ascii.eqb (GetShort arg) c then
        if IsExpectingValue arg then arg :: rest
        else mark_given arg :: short_abort c rest
      else arg :: short_abort c rest
  end.

(** A token that makes [Parse] show the help: [--help], or a short-form
    token whose character after the dash is [h]. *)
Definition triggers_help (tok : string) : bool :=
  if Str.starts_with "--" tok then String.eqb tok "--help"
  else if Str.starts_with "-" tok then
    match Str.at_ tok 1 with
    | Some c => Ascii.eqb c "h"
    | None => false
    end
  else false.

(** The help text has been written and the process has exited with
    status 0; nothing was written to [std::cerr]. *)
Definition help_shown {A} (w : io) (r : outcome A * io) : Prop :=
  r = (Exits 0, mkIO (cout w +++ help_message) (cerr w)).

(** A required argument whose [GetValue] is empty. *)
Definition missing (arg : Argument.t) : bool :=
  IsRequired arg && negb (has_value (GetValue arg)).

(** The class invariant of [Argument]. *)
Definition flag_or_value (a : Argument.t) : Prop :=
  expects_value_ a = true -> is_option_ a = false.

Definition or_empty (o : option string) : string :=
  match o with Some v => v | None => EmptyString end.

(** The arguments after the token [tok], followed by [next], has been
    processed and the call has returned. *)
Definition token_edit (tok : string) (next : option string)
           (args : list Argument.t) : list Argument.t :=
  if Str.starts_with "--" tok then
    match Str.substr 2 tok with
    | Some X =>
        if Nat.eqb (Str.size X) 0 then args
        else map (long_edit X (or_empty next)) args
    | None => args
    end
  else if Str.starts_with "-" tok then
    match Str.at_ tok 1 with
    | Some c =>
        if Ascii.eqb c Str.nul then args
        else match next with
             | Some v => map (short_edit c v) args
             | None => short_abort c args
             end
    | None => args
    end
  else args.

(** The token is a long form whose argument expects a value, and no
    token follows. *)
Definition overruns (tok : string) (next : option string)
           (args : list Argument.t) : bool :=
  match next with
  | Some _ => false
  | None =>
      Str.starts_with "--" tok
      && match Str.substr 2 tok with
         | Some X => negb (Nat.eqb (Str.size X) 0) && wants_long X args
         | None => false
         end
  end.

Definition help_exit {A} (w : io) : outcome A * io :=
  (Exits 0, mkIO (cout w +++ help_message) (cerr w)).

(** The first loop of [Parse] on the tokens [toks] still to visit: the
    arguments when it completes, exit 0 when a token shows the help,
    out of bounds when the last token overruns. *)
Fixpoint scan_tokens (toks : list string) (args : list Argument.t)
  : outcome (list Argument.t) :=
  match toks with
  | [] => Returns args
  | tok :: rest =>
      if triggers_help tok then Exits 0
      else if overruns tok (hd_error rest) args then OutOfBounds
      else scan_tokens rest (token_edit tok (hd_error rest) args)
  end.

Definition scan_result (self : Args.t) (w : io)
           (o : outcome (list Argument.t)) : outcome Args.t * io :=
  match o with
  | Returns args => (Returns (set_args self args), w)
  | Exits _ => help_exit w
  | Throws e => (Throws e, w)
  | OutOfBounds => (OutOfBounds, w)
  end.

(** The declaration of an argument: every field but the value and the
    given-flag. *)
Definition decl (a : Argument.t)
  : string * string * ascii * bool * bool * bool :=
  (Argument.name_ a, long_ a, short_ a, required_ a, expects_value_ a,
   is_option_ a).

(** The token [tok] names the argument [a]: by its long form after two
    dashes, or by its short form after one. *)
Definition names (tok : string) (a : Argument.t) : bool :=
  if Str.starts_with "--" tok then
    match Str.substr 2 tok with
    | Some X => negb (Nat.eqb (Str.size X) 0) && String.eqb (GetLong a) X
    | None => false
    end
  else if Str.starts_with "-" tok then
    match Str.at_ tok 1 with
    | Some c => negb (Ascii.eqb c Str.nul) && Ascii.eqb (GetShort a) c
    | None => false
    end
  else false.

(** Options with the short form [c] are marked. *)
Definition mark_short (c : ascii) (arg : Argument.t) : Argument.t :=
  if Ascii.eqb (GetShort arg) c then mark_given arg else arg.

Definition named (arg_name : string) (a : Argument.t) : bool :=
  String.eqb (GetName a) arg_name.

(** What a scan does to one argument: nothing, or [take v]. *)
Definition plan : Type := list (option string).

Fixpoint apply_plan (p : plan) (args : list Argument.t)
  : list Argument.t :=
  match p, args with
  | o :: p', a :: rest =>
      match o with Some v => take v a | None => a end :: apply_plan p' rest
  | _, _ => args
  end.

(** The plan of a scan followed by another: the later value wins. *)
Fixpoint then_plan (p q : plan) : plan :=
  match p, q with
  | o :: p', o' :: q' =>
      match o' with Some v => Some v | None => o end :: then_plan p' q'
  | [], _ => q
  | _, [] => p
  end.

Definition Decl : Type := string * string * ascii * bool * bool * bool.

Definition d_long (d : Decl) : string :=
  let '(_, l, _, _, _, _) := d in l.
Definition d_short (d : Decl) : ascii :=
  let '(_, _, s, _, _, _) := d in s.
Definition d_expects (d : Decl) : bool :=
  let '(_, _, _, _, e, _) := d in e.

Definition long_plan (X v : string) (ds : list Decl) : plan :=
  map (fun d => if String.eqb (d_long d) X then Some v else None) ds.

Definition short_plan (c : ascii) (v : string) (ds : list Decl) : plan :=
  map (fun d => if Ascii.eqb (d_short d) c then Some v else None) ds.

Fixpoint abort_plan (c : ascii) (ds : list Decl) : plan :=
  match ds with
  | [] => []
  | d :: rest =>
      if Ascii.eqb (d_short d) c then
        if d_expects d then []
        else Some EmptyString :: abort_plan c rest
      else None :: abort_plan c rest
  end.

(** An update of the arguments that is a plan read off the declarations. *)
Definition plan_like (f : list Argument.t -> list Argument.t) : Prop :=
  exists pf : list Decl -> plan,
    forall args, f args = apply_plan (pf (map decl args)) args.

(* ------------------------------------------------------------------ *)
(** ** The claims that fail as they are stated, and the command lines
    the statements are tried on *)

(** The reading of C1: when [--X] is processed, an argument registered
    after another one with the same long form [X] keeps its value and
    its given-flag. *)
Definition only_first_long_match (self : Args.t) (i : Z) : Prop :=
  forall X w self' w' j k a b b',
    token (raw_args_ self) i = Some ("--" +++ X) ->
    X <> EmptyString -> X <> "help"%string ->
    Parse_token self i w = (Returns self', w') ->
    (j < k)%nat ->
    nth_error (args_ self) j = Some a -> GetLong a = X ->
    nth_error (args_ self) k = Some b -> GetLong b = X ->
    nth_error (args_ self') k = Some b' ->
    value_ b' = value_ b /\ is_given_ b' = is_given_ b.

(** Two options [a] and [b] registered with the long form [v], and the
    command line [--v]. *)
Definition two_flags : Args.t :=
  {| raw_args_ := ["--v"%string];
     args_ := [SetLong "v" (WithName "a"); SetLong "v" (WithName "b")];
     terminateBy_ := Exit; num_args_ := 1;
     about_ := EmptyString; author_ := EmptyString;
     Args.name_ := EmptyString; version_ := "0.0.1"%string |}.

(** The reading of C2: whenever the last token is [--X] and an argument
    with long form [X] expects a value, [Parse] indexes the tokens out of
    range. *)
Definition last_long_token_overruns (self : Args.t) : Prop :=
  forall pre X w,
    well_formed self ->
    raw_args_ self = pre ++ ["--" +++ X] ->
    wants_long X (args_ self) = true ->
    fst (Parse self w) = OutOfBounds.

(** The command line [--help --out], [out] expecting a value. *)
Definition help_then_out : Args.t :=
  {| raw_args_ := ["--help"%string; "--out"%string];
     args_ := [ExpectsValue (SetLong "out" (WithName "out"))];
     terminateBy_ := Exit; num_args_ := 2;
     about_ := EmptyString; author_ := EmptyString;
     Args.name_ := EmptyString; version_ := "0.0.1"%string |}.

(** The command line [--out], [out] expecting a value. *)
Definition lone_out : Args.t :=
  {| raw_args_ := ["--out"%string];
     args_ := [ExpectsValue (SetLong "out" (WithName "out"))];
     terminateBy_ := Exit; num_args_ := 1;
     about_ := EmptyString; author_ := EmptyString;
     Args.name_ := EmptyString; version_ := "0.0.1"%string |}.

(** The reading of C3: once the scan has completed, [Terminate] is
    called on every required argument without a value. *)
Definition every_missing_argument_reported (self : Args.t) : Prop :=
  forall w self' w' a,
    Parse_scan (Z.to_nat (num_args_ self)) 0 self w = (Returns self', w') ->
    In a (args_ self') ->
    IsRequired a = true -> GetValue a = None ->
    Parse self w = (Terminate self' a ;;; ret self') w'.

(** Two required arguments, [in] and [out], and an empty command line. *)
Definition two_required : Args.t :=
  {| raw_args_ := [];
     args_ := [Required (ExpectsValue (SetLong "in" (WithName "in")));
               Required (ExpectsValue (SetLong "out" (WithName "out")))];
     terminateBy_ := Exit; num_args_ := 0;
     about_ := EmptyString; author_ := EmptyString;
     Args.name_ := EmptyString; version_ := "0.0.1"%string |}.

(** The command line [-h] with a required argument that has no value. *)
Definition help_with_missing : Args.t :=
  {| raw_args_ := ["-h"%string];
     args_ := [Required (ExpectsValue (SetLong "out" (WithName "out")))];
     terminateBy_ := Exit; num_args_ := 1;
     about_ := EmptyString; author_ := EmptyString;
     Args.name_ := EmptyString; version_ := "0.0.1"%string |}.

(** The command line [--name --verbose], [name] expecting a value. *)
Definition value_with_dashes : Args.t :=
  {| raw_args_ := ["--name"%string; "--verbose"%string];
     args_ := [ExpectsValue (SetLong "name" (WithName "name"));
               SetLong "verbose" (WithName "verbose")];
     terminateBy_ := Exit; num_args_ := 2;
     about_ := EmptyString; author_ := EmptyString;
     Args.name_ := EmptyString; version_ := "0.0.1"%string |}.

(** The reading of C6: when the last token is [-c...] and a registered
    argument with the short form [c] expects a value, [ReadShortArg]
    returns and leaves every argument as it was. *)
Definition short_abort_sets_nothing (self : Args.t) : Prop :=
  forall pre tok c a w,
    well_formed self ->
    raw_args_ self = pre ++ [tok] ->
    Str.starts_with "--" tok = false -> Str.starts_with "-" tok = true ->
    Str.at_ tok 1 = Some c ->
    In a (args_ self) -> GetShort a = c -> IsExpectingValue a = true ->
    ReadShortArg self (num_args_ self - 1) w = (Returns self, w).

(** An option and an argument with a value that share the short form
    [x], and the command line [-x]. *)
Definition flag_then_value : Args.t :=
  {| raw_args_ := ["-x"%string];
     args_ := [SetShort "x" (WithName "flag");
               ExpectsValue (SetShort "x" (WithName "value"))];
     terminateBy_ := Exit; num_args_ := 1;
     about_ := EmptyString; author_ := EmptyString;
     Args.name_ := EmptyString; version_ := "0.0.1"%string |}.

(** The command line [-o], [out] with short form [o] expecting a value. *)
Definition lone_short : Args.t :=
  {| raw_args_ := ["-o"%string];
     args_ := [ExpectsValue (SetShort "o" (WithName "out"))];
     terminateBy_ := Exit; num_args_ := 1;
     about_ := EmptyString; author_ := EmptyString;
     Args.name_ := EmptyString; version_ := "0.0.1"%string |}.

(** The command line [--name Alice --verbose]. *)
Definition example_1 : Args.t :=
  {| raw_args_ := ["--name"%string; "Alice"%string; "--verbose"%string];
     args_ := [ExpectsValue (SetLong "name" (WithName "name"));
               SetLong "verbose" (WithName "verbose")];
     terminateBy_ := Exit; num_args_ := 3;
     about_ := EmptyString; author_ := EmptyString;
     Args.name_ := EmptyString; version_ := "0.0.1"%string |}.

Definition example_1_parsed : Args.t :=
  set_args example_1
    [SetValue "Alice" (ExpectsValue (SetLong "name" (WithName "name")));
     SetGiven true (SetLong "verbose" (WithName "verbose"))].

(** The command line [-n Bob], the argument [name] with short form [n]
    expecting a value. *)
Definition example_2 : Args.t :=
  {| raw_args_ := ["-n"%string; "Bob"%string];
     args_ := [ExpectsValue (SetShort "n" (WithName "name"))];
     terminateBy_ := Exit; num_args_ := 2;
     about_ := EmptyString; author_ := EmptyString;
     Args.name_ := EmptyString; version_ := "0.0.1"%string |}.

(** An empty command line, the argument [out] required. *)
Definition example_3 : Args.t :=
  {| raw_args_ := [];
     args_ := [Required (SetLong "out" (WithName "out"))];
     terminateBy_ := Exit; num_args_ := 0;
     about_ := EmptyString; author_ := EmptyString;
     Args.name_ := EmptyString; version_ := "0.0.1"%string |}.

(** The command line [--unknown x], no argument with that long form. *)
Definition example_4 : Args.t :=
  {| raw_args_ := ["--unknown"%string; "x"%string];
     args_ := [SetLong "verbose" (WithName "verbose")];
     terminateBy_ := Exit; num_args_ := 2;
     about_ := EmptyString; author_ := EmptyString;
     Args.name_ := EmptyString; version_ := "0.0.1"%string |}.

Definition no_output : io := mkIO EmptyString EmptyString.

(* ------------------------------------------------------------------ *)
(** ** Vocabulary of the further properties *)


(** The object a call returns, changed by [g]; the other outcomes and the
    output as they are. *)
Definition on_return {A B} (g : A -> B) (r : outcome A * io)
  : outcome B * io :=
  match r with
  | (Returns a, w) => (Returns (g a), w)
  | (Exits s, w) => (Exits s, w)
  | (Throws e, w) => (Throws e, w)
  | (OutOfBounds, w) => (OutOfBounds, w)
  end.

(** An argument that no token can name: its long form is empty or the
    reserved [help], its short form is unset or the reserved [h]. *)
Definition no_usable_form (a : Argument.t) : Prop :=
  (long_ a = EmptyString \/ long_ a = "help"%string)
  /\ (short_ a = Str.nul \/ short_ a = "h"%char).

(** What parsing may do to one argument: the declaration stays, a
    given-flag that is set stays set, only an argument that expects a
    value gets a new value, and only an option gets its given-flag set. *)
Definition only_set (a a' : Argument.t) : Prop :=
  decl a' = decl a
  /\ (is_given_ a = true -> is_given_ a' = true)
  /\ (IsExpectingValue a = false -> value_ a' = value_ a)
  /\ (Argument.IsOption a = false -> is_given_ a' = is_given_ a).

(** A token that shows the help: [--help], or [-h] followed by anything. *)
Definition help_token (tok : string) : Prop :=
  tok = "--help"%string \/ exists rest, tok = "-h" +++ rest.

(** The command line [-- - x], the argument [plain] with no short and no
    long form. *)
Definition formless : Args.t :=
  {| raw_args_ := ["--"%string; "-"%string; "x"%string];
     args_ := [WithName "plain"];
     terminateBy_ := Exit; num_args_ := 3;
     about_ := EmptyString; author_ := EmptyString;
     Args.name_ := EmptyString; version_ := "0.0.1"%string |}.

(* ------------------------------------------------------------------ *)
(** ** The monad and the containers *)

Section Effects.

Context {A B : Type}.

Lemma bind_ret (a : A) (k : A -> M B) (w : io) :
  bind (ret a) k w = k a w.
Proof. reflexivity. Qed.

Lemma bind_returns (m : M A) (k : A -> M B) (w w' : io) (a : A) :
  m w = (Returns a, w') -> bind m k w = k a w'.
Proof. unfold bind; intros ->; reflexivity. Qed.

Lemma bind_inv (m : M A) (k : A -> M B) (w w' : io) (b : B) :
  bind m k w = (Returns b, w') ->
  exists a w1, m w = (Returns a, w1) /\ k a w1 = (Returns b, w').
Proof.
  unfold bind; destruct (m w) as [[a | s | e | ] w1]; intros H;
    try discriminate; eauto.
Qed.

End Effects.

Lemma index_token {A} (v : list A) (i : Z) (x : A) (w : io) :
  (if i <? 0 then None else nth_error v (Z.to_nat i)) = Some x ->
  index v i w = (Returns x, w).
Proof.
  unfold index; destruct (i <? 0); [discriminate |].
  intros ->; reflexivity.
Qed.

Lemma index_none {A} (v : list A) (i : Z) (w : io) :
  (if i <? 0 then None else nth_error v (Z.to_nat i)) = None ->
  index v i w = (OutOfBounds, w).
Proof.
  unfold index; destruct (i <? 0); [reflexivity |].
  intros ->; reflexivity.
Qed.

Lemma token_some_range (raw : list string) (i : Z) (s : string) :
  token raw i = Some s -> 0 <= i < Z.of_nat (List.length raw).
Proof.
  unfold token; destruct (Z.ltb_spec i 0) as [Hneg | Hpos]; [discriminate |].
  intros Hs; assert (Hn : nth_error raw (Z.to_nat i) <> None) by congruence.
  apply nth_error_Some in Hn; lia.
Qed.

Lemma token_none_range (raw : list string) (i : Z) :
  token raw i = None -> i < 0 \/ Z.of_nat (List.length raw) <= i.
Proof.
  unfold token; destruct (Z.ltb_spec i 0) as [Hneg | Hpos]; [lia |].
  intros Hs; apply nth_error_None in Hs; lia.
Qed.

Lemma to_size_t_int (z : Z) : 0 <= z <= INT_MAX -> to_size_t z = z.
Proof.
  unfold to_size_t, INT_MAX; intros H; apply Z.mod_small; lia.
Qed.

(* ------------------------------------------------------------------ *)
(** ** The two matching loops *)

Lemma ReadLongArg_loop_value raw i name v args w :
  token raw (i + 1) = Some v ->
  ReadLongArg_loop raw i name args w
  = (Returns (map (long_edit name v) args), w).
Proof.
  intros Hv; induction args as [| a rest IH]; [reflexivity |].
  cbn [ReadLongArg_loop map]; unfold long_edit at 1, take.
  destruct (String.eqb (GetLong a) name).
  - destruct (IsExpectingValue a).
    + unfold bind at 1 2. rewrite (index_token _ _ v) by exact Hv.
      unfold ret at 1. unfold bind. rewrite IH. reflexivity.
    + unfold bind, ret at 1. rewrite IH. reflexivity.
  - unfold bind. rewrite IH. reflexivity.
Qed.

Lemma ReadLongArg_loop_flags raw i name v args w :
  wants_long name args = false ->
  ReadLongArg_loop raw i name args w
  = (Returns (map (long_edit name v) args), w).
Proof.
  induction args as [| a rest IH]; [reflexivity |].
  cbn [wants_long existsb]; intros H.
  apply orb_false_iff in H; destruct H as [Ha Hrest].
  cbn [ReadLongArg_loop map]; unfold long_edit at 1, take.
  destruct (String.eqb (GetLong a) name); cbn [andb] in Ha.
  - rewrite Ha. unfold bind, ret at 1. rewrite (IH Hrest). reflexivity.
  - unfold bind. rewrite (IH Hrest). reflexivity.
Qed.

Lemma ReadLongArg_loop_overrun raw i name args w :
  token raw (i + 1) = None ->
  wants_long name args = true ->
  ReadLongArg_loop raw i name args w = (OutOfBounds, w).
Proof.
  intros Hv; induction args as [| a rest IH]; [discriminate |].
  cbn [wants_long existsb]; intros H.
  cbn [ReadLongArg_loop].
  destruct (String.eqb (GetLong a) name); cbn [andb orb] in H.
  - destruct (IsExpectingValue a); cbn [orb] in H.
    + unfold bind at 1 2. rewrite index_none by exact Hv. reflexivity.
    + unfold bind, ret at 1. rewrite (IH H). reflexivity.
  - unfold bind. rewrite (IH H). reflexivity.
Qed.

(* ------------------------------------------------------------------ *)
(** ** One token *)

Lemma long_token_prefix (X : string) :
  Str.starts_with "--" ("--" +++ X) = true.
Proof.
  unfold Str.starts_with; cbn.
  destruct (ascii_dec "-" "-") as [_ | n]; [| now elim n].
  now destruct X.
Qed.

Lemma starts_with_inv (p s : string) :
  Str.starts_with p s = true -> exists r, s = p +++ r.
Proof.
  unfold Str.starts_with; revert s.
  induction p as [| c p IH]; intros s H; [exists s; reflexivity |].
  destruct s as [| d s]; cbn in H; [discriminate |].
  destruct (ascii_dec c d) as [-> | _]; [| discriminate].
  destruct (IH s H) as [r ->]; exists r; reflexivity.
Qed.

Lemma size_zero (s : string) : Nat.eqb (Str.size s) 0 = true <-> s = EmptyString.
Proof.
  destruct s; cbn; split; intros H; try reflexivity; discriminate.
Qed.

Lemma size_nonzero (s : string) :
  s <> EmptyString -> Nat.eqb (Str.size s) 0 = false.
Proof.
  intros H; destruct (Nat.eqb (Str.size s) 0) eqn:E; [| reflexivity].
  apply size_zero in E; contradiction.
Qed.

Lemma Parse_token_long self i X w :
  token (raw_args_ self) i = Some ("--" +++ X) ->
  Parse_token self i w = ReadLongArg self i w.
Proof.
  intros Ht; unfold Parse_token.
  rewrite (bind_returns _ _ w w ("--" +++ X)) by (apply index_token; exact Ht).
  rewrite long_token_prefix; reflexivity.
Qed.

Lemma ReadLongArg_token self i X w :
  token (raw_args_ self) i = Some ("--" +++ X) ->
  ReadLongArg self i w
  = (if Nat.eqb (Str.size X) 0 then ret self
     else (if String.eqb X "help" then ShowHelp else ret tt) ;;;
          args <- ReadLongArg_loop (raw_args_ self) i X (args_ self) ;;
          ret (set_args self args)) w.
Proof.
  intros Ht; unfold ReadLongArg.
  rewrite (bind_returns _ _ w w ("--" +++ X)) by (apply index_token; exact Ht).
  reflexivity.
Qed.

Lemma ReadLongArg_help self i w :
  token (raw_args_ self) i = Some "--help"%string ->
  help_shown w (ReadLongArg self i w).
Proof.
  intros Ht; rewrite (ReadLongArg_token self i "help") by exact Ht.
  reflexivity.
Qed.

Lemma ReadLongArg_match self i X v w :
  token (raw_args_ self) i = Some ("--" +++ X) ->
  X <> EmptyString -> X <> "help"%string ->
  token (raw_args_ self) (i + 1) = Some v
  \/ wants_long X (args_ self) = false ->
  ReadLongArg self i w
  = (Returns (set_args self (map (long_edit X v) (args_ self))), w).
Proof.
  intros Ht Hne Hnh Hv; rewrite (ReadLongArg_token self i X) by exact Ht.
  rewrite size_nonzero by exact Hne.
  apply String.eqb_neq in Hnh; rewrite Hnh.
  rewrite bind_ret.
  assert (E : ReadLongArg_loop (raw_args_ self) i X (args_ self) w
              = (Returns (map (long_edit X v) (args_ self)), w)).
  { destruct Hv as [Hv | Hv].
    - apply ReadLongArg_loop_value; exact Hv.
    - apply ReadLongArg_loop_flags; exact Hv. }
  rewrite (bind_returns _ _ _ _ _ E); reflexivity.
Qed.

Lemma ReadLongArg_overrun self i X w :
  token (raw_args_ self) i = Some ("--" +++ X) ->
  X <> EmptyString -> X <> "help"%string ->
  token (raw_args_ self) (i + 1) = None ->
  wants_long X (args_ self) = true ->
  ReadLongArg self i w = (OutOfBounds, w).
Proof.
  intros Ht Hne Hnh Hv Hw; rewrite (ReadLongArg_token self i X) by exact Ht.
  rewrite size_nonzero by exact Hne.
  apply String.eqb_neq in Hnh; rewrite Hnh.
  rewrite bind_ret. unfold bind.
  rewrite ReadLongArg_loop_overrun by assumption; reflexivity.
Qed.

Lemma take_value v a :
  IsExpectingValue a = true -> value_ (take v a) = v.
Proof.
  unfold take, mark_given; intros ->.
  destruct (Argument.IsOption (SetValue v a)); reflexivity.
Qed.

Lemma take_given v a :
  Argument.IsOption a = true -> is_given_ (take v a) = true.
Proof.
  unfold take, mark_given; intros H.
  destruct (IsExpectingValue a); cbn; unfold Argument.IsOption in *;
    cbn; rewrite H; reflexivity.
Qed.

(* ------------------------------------------------------------------ *)
(** ** The four examples of the specification, run on the model *)

Example example_1_parse :
  Parse example_1 no_output = (Returns example_1_parsed, no_output)
  /\ Get example_1_parsed "name" = Some "Alice"%string
  /\ Args.IsGiven example_1_parsed "verbose" = true.
Proof. repeat split. Qed.

Example example_2_parse :
  exists self,
    Parse example_2 no_output = (Returns self, no_output)
    /\ Get self "name" = Some "Bob"%string.
Proof. eexists; split; reflexivity. Qed.

Example example_3_parse :
  Parse example_3 no_output
  = (Exits EXIT_FAILURE,
     mkIO EmptyString
       ("Error: Missing required value for argument 'out'" +++ Str.nl)).
Proof. reflexivity. Qed.

Example example_4_parse :
  Parse example_4 no_output = (Returns example_4, no_output).
Proof. reflexivity. Qed.

(* ------------------------------------------------------------------ *)
(** ** C1: several arguments with one long form *)

(** C1, as stated, fails: on [two_flags] the token [--v] also sets the
    given-flag of the second argument with long form [v]. *)
Lemma C1_later_match_is_updated : ~ only_first_long_match two_flags 0.
Proof.
  intros H.
  destruct (H "v"%string (mkIO EmptyString EmptyString) _ _ 0%nat 1%nat _ _ _
              eq_refl ltac:(discriminate) ltac:(discriminate)
              eq_refl ltac:(lia) eq_refl eq_refl eq_refl eq_refl eq_refl)
    as [_ Hg].
  discriminate Hg.
Qed.

(** C1, amended: a token [--X] ([X] not empty, not [help]) updates every
    registered argument whose long form is [X], the later ones as the
    first: each takes the next token [v] as its value when it expects
    one and has its given-flag set when it is an option; an argument with
    another long form is left as it is. (The next token exists, or no
    argument with long form [X] expects a value.) *)
Theorem C1_long_token_updates_every_match :
  forall (self : Args.t) (i : Z) (X v : string) (w : io),
    token (raw_args_ self) i = Some ("--" +++ X) ->
    X <> EmptyString -> X <> "help"%string ->
    token (raw_args_ self) (i + 1) = Some v
    \/ wants_long X (args_ self) = false ->
    exists self',
      Parse_token self i w = (Returns self', w)
      /\ List.length (args_ self') = List.length (args_ self)
      /\ forall k b,
          nth_error (args_ self) k = Some b ->
          exists b',
            nth_error (args_ self') k = Some b'
            /\ (GetLong b = X ->
                b' = take v b
                /\ (IsExpectingValue b = true -> value_ b' = v)
                /\ (Argument.IsOption b = true -> is_given_ b' = true))
            /\ (GetLong b <> X -> b' = b).
Proof.
  intros self i X v w Ht Hne Hnh Hv.
  exists (set_args self (map (long_edit X v) (args_ self))).
  split; [| split].
  - rewrite (Parse_token_long self i X) by exact Ht.
    apply ReadLongArg_match; assumption.
  - cbn; apply length_map.
  - intros k b Hk; exists (long_edit X v b); split; [| split].
    + cbn; rewrite nth_error_map, Hk; reflexivity.
    + intros Hl; unfold long_edit.
      apply String.eqb_eq in Hl; rewrite Hl.
      split; [reflexivity | split].
      * apply take_value.
      * apply take_given.
    + intros Hl; unfold long_edit.
      apply String.eqb_neq in Hl; rewrite Hl; reflexivity.
Qed.

Lemma C1_long_token_updates_every_match_witness :
  exists self',
    Parse_token two_flags 0 (mkIO EmptyString EmptyString)
    = (Returns self', mkIO EmptyString EmptyString)
    /\ List.length (args_ self') = List.length (args_ two_flags)
    /\ forall k b,
        nth_error (args_ two_flags) k = Some b ->
        exists b',
          nth_error (args_ self') k = Some b'
          /\ (GetLong b = "v"%string ->
              b' = take EmptyString b
              /\ (IsExpectingValue b = true -> value_ b' = EmptyString)
              /\ (Argument.IsOption b = true -> is_given_ b' = true))
          /\ (GetLong b <> "v"%string -> b' = b).
Proof.
  apply (C1_long_token_updates_every_match two_flags 0 "v" EmptyString).
  - reflexivity.
  - discriminate.
  - discriminate.
  - right; reflexivity.
Defined.

(* ------------------------------------------------------------------ *)
(** ** The loop of [ReadShortArg] *)

Lemma size_check_passes raw i v :
  0 <= i < INT_MAX ->
  token raw (i + 1) = Some v ->
  (Z.of_nat (List.length raw) <=? to_size_t (i + 1)) = false.
Proof.
  intros Hi Hv; apply token_some_range in Hv.
  rewrite to_size_t_int by lia; apply Z.leb_gt; lia.
Qed.

Lemma size_check_fails raw i :
  0 <= i < INT_MAX ->
  token raw (i + 1) = None ->
  (Z.of_nat (List.length raw) <=? to_size_t (i + 1)) = true.
Proof.
  intros Hi Hv; apply token_none_range in Hv.
  rewrite to_size_t_int by lia; apply Z.leb_le; lia.
Qed.

Lemma ReadShortArg_loop_value raw i c v args w :
  (Z.of_nat (List.length raw) <=? to_size_t (i + 1)) = false ->
  token raw (i + 1) = Some v ->
  ReadShortArg_loop raw i c args w
  = (Returns (map (short_edit c v) args), w).
Proof.
  intros Hi Hv; induction args as [| a rest IH]; [reflexivity |].
  cbn [ReadShortArg_loop map]; unfold short_edit at 1, take.
  rewrite Hi.
  destruct (Ascii.eqb (GetShort a) c).
  - destruct (IsExpectingValue a).
    + unfold bind at 1. rewrite (index_token _ _ v) by exact Hv.
      unfold bind. rewrite IH. reflexivity.
    + unfold bind. rewrite IH. reflexivity.
  - unfold bind. rewrite IH. reflexivity.
Qed.

Lemma ReadShortArg_loop_flags raw i c v args w :
  wants_short c args = false ->
  ReadShortArg_loop raw i c args w
  = (Returns (map (short_edit c v) args), w).
Proof.
  induction args as [| a rest IH]; [reflexivity |].
  cbn [wants_short existsb]; intros H.
  apply orb_false_iff in H; destruct H as [Ha Hrest].
  cbn [ReadShortArg_loop map]; unfold short_edit at 1, take.
  destruct (Ascii.eqb (GetShort a) c); cbn [andb] in Ha.
  - rewrite Ha. unfold bind. rewrite (IH Hrest). reflexivity.
  - unfold bind. rewrite (IH Hrest). reflexivity.
Qed.

Lemma ReadShortArg_loop_overrun raw i c args w :
  (Z.of_nat (List.length raw) <=? to_size_t (i + 1)) = false ->
  token raw (i + 1) = None ->
  wants_short c args = true ->
  ReadShortArg_loop raw i c args w = (OutOfBounds, w).
Proof.
  intros Hi Hv; induction args as [| a rest IH]; [discriminate |].
  cbn [wants_short existsb]; intros H.
  cbn [ReadShortArg_loop]; rewrite Hi.
  destruct (Ascii.eqb (GetShort a) c); cbn [andb orb] in H.
  - destruct (IsExpectingValue a); cbn [orb] in H.
    + unfold bind at 1. rewrite index_none by exact Hv. reflexivity.
    + unfold bind. rewrite (IH H). reflexivity.
  - unfold bind. rewrite (IH H). reflexivity.
Qed.

Lemma ReadShortArg_loop_abort raw i c args w :
  (Z.of_nat (List.length raw) <=? to_size_t (i + 1)) = true ->
  ReadShortArg_loop raw i c args w = (Returns (short_abort c args), w).
Proof.
  intros Hi; induction args as [| a rest IH]; [reflexivity |].
  cbn [ReadShortArg_loop short_abort].
  rewrite Hi.
  destruct (Ascii.eqb (GetShort a) c).
  - destruct (IsExpectingValue a); [reflexivity |].
    unfold bind. rewrite IH. reflexivity.
  - unfold bind. rewrite IH. reflexivity.
Qed.

(** A token with one leading dash: the rest of it does not start with a
    dash. *)
Lemma short_token_inv (tok : string) :
  Str.starts_with "--" tok = false ->
  Str.starts_with "-" tok = true ->
  exists c, Str.at_ tok 1 = Some c /\ c <> "-"%char.
Proof.
  intros Hl Hs; apply starts_with_inv in Hs; destruct Hs as [r ->].
  destruct r as [| c r].
  - exists Str.nul; split; [reflexivity | discriminate].
  - exists c; split; [reflexivity |].
    intros ->; revert Hl; unfold Str.starts_with; cbn.
    destruct (ascii_dec "-" "-") as [_ | n]; [| now elim n].
    destruct r; discriminate.
Qed.

Lemma Parse_token_short self i tok w :
  token (raw_args_ self) i = Some tok ->
  Str.starts_with "--" tok = false ->
  Str.starts_with "-" tok = true ->
  Parse_token self i w = ReadShortArg self i w.
Proof.
  intros Ht Hl Hs; unfold Parse_token.
  rewrite (bind_returns _ _ w w tok) by (apply index_token; exact Ht).
  rewrite Hl, Hs; reflexivity.
Qed.

Lemma ReadShortArg_token self i tok c w :
  token (raw_args_ self) i = Some tok ->
  Str.at_ tok 1 = Some c ->
  ReadShortArg self i w
  = (if Ascii.eqb c Str.nul then ret self
     else (if Ascii.eqb c "h" then ShowHelp else ret tt) ;;;
          args <- ReadShortArg_loop (raw_args_ self) i c (args_ self) ;;
          ret (set_args self args)) w.
Proof.
  intros Ht Hc; unfold ReadShortArg.
  rewrite (bind_returns _ _ w w tok) by (apply index_token; exact Ht).
  rewrite Hc; reflexivity.
Qed.

Lemma ReadShortArg_match self i tok c v w :
  0 <= i < INT_MAX ->
  token (raw_args_ self) i = Some tok ->
  Str.at_ tok 1 = Some c ->
  c <> Str.nul -> c <> "h"%char ->
  token (raw_args_ self) (i + 1) = Some v ->
  ReadShortArg self i w
  = (Returns (set_args self (map (short_edit c v) (args_ self))), w).
Proof.
  intros Hi Ht Hc Hn Hh Hv; rewrite (ReadShortArg_token self i tok c) by assumption.
  apply Ascii.eqb_neq in Hn, Hh; rewrite Hn, Hh, bind_ret.
  rewrite (bind_returns _ _ _ _ _
             (ReadShortArg_loop_value _ i c v _ w
                (size_check_passes _ i v Hi Hv) Hv)).
  reflexivity.
Qed.

Lemma ReadShortArg_abort self i tok c w :
  0 <= i < INT_MAX ->
  token (raw_args_ self) i = Some tok ->
  Str.at_ tok 1 = Some c ->
  c <> Str.nul -> c <> "h"%char ->
  token (raw_args_ self) (i + 1) = None ->
  ReadShortArg self i w
  = (Returns (set_args self (short_abort c (args_ self))), w).
Proof.
  intros Hi Ht Hc Hn Hh Hv; rewrite (ReadShortArg_token self i tok c) by assumption.
  apply Ascii.eqb_neq in Hn, Hh; rewrite Hn, Hh, bind_ret.
  rewrite (bind_returns _ _ _ _ _
             (ReadShortArg_loop_abort _ i c _ w
                (size_check_fails _ i Hi Hv))).
  reflexivity.
Qed.

(* ------------------------------------------------------------------ *)
(** ** What one iteration of the scan does *)

Lemma long_help_eqb (X : string) :
  String.eqb ("--" +++ X) "--help" = String.eqb X "help".
Proof. reflexivity. Qed.

Lemma Parse_token_spec self i tok w :
  0 <= i < INT_MAX ->
  token (raw_args_ self) i = Some tok ->
  Parse_token self i w
  = if triggers_help tok then help_exit w
    else if overruns tok (token (raw_args_ self) (i + 1)) (args_ self)
         then (OutOfBounds, w)
         else (Returns
                 (set_args self
                    (token_edit tok (token (raw_args_ self) (i + 1))
                       (args_ self))), w).
Proof.
  intros Hi Ht.
  assert (Hself : set_args self (args_ self) = self) by now destruct self.
  unfold triggers_help, overruns, token_edit.
  destruct (Str.starts_with "--" tok) eqn:Hl.
  - (* long form *)
    destruct (starts_with_inv _ _ Hl) as [X ->].
    rewrite (Parse_token_long self i X) by exact Ht.
    change (Str.substr 2 ("--" +++ X)) with (Some X).
    rewrite long_help_eqb.
    destruct (Nat.eqb (Str.size X) 0) eqn:Hz.
    + apply size_zero in Hz; subst X.
      rewrite (ReadLongArg_token self i EmptyString) by exact Ht.
      cbn. rewrite Hself. now destruct (token (raw_args_ self) (i + 1)).
    + assert (Hne : X <> EmptyString).
      { intros ->; discriminate. }
      destruct (String.eqb_spec X "help") as [-> | Hnh].
      * exact (ReadLongArg_help self i w Ht).
      * destruct (token (raw_args_ self) (i + 1)) as [v |] eqn:Hv.
        -- cbn [andb negb or_empty].
           apply (ReadLongArg_match self i X v); auto.
        -- cbn [andb negb or_empty].
           destruct (wants_long X (args_ self)) eqn:Hw.
           ++ apply (ReadLongArg_overrun self i X); auto.
           ++ apply (ReadLongArg_match self i X EmptyString); auto.
  - destruct (Str.starts_with "-" tok) eqn:Hs.
    + (* short form *)
      destruct (short_token_inv tok Hl Hs) as (c & Hc & _).
      rewrite (Parse_token_short self i tok) by assumption.
      rewrite Hc.
      assert (Hno : (match token (raw_args_ self) (i + 1) with
                     | Some _ => false
                     | None => false && match Str.substr 2 tok with
                                        | Some X =>
                                            negb (Nat.eqb (Str.size X) 0)
                                            && wants_long X (args_ self)
                                        | None => false
                                        end
                     end) = false).
      { now destruct (token (raw_args_ self) (i + 1)). }
      rewrite Hno; clear Hno.
      destruct (Ascii.eqb_spec c Str.nul) as [-> | Hn].
      * rewrite (ReadShortArg_token self i tok Str.nul) by assumption.
        cbn. now rewrite Hself.
      * destruct (Ascii.eqb_spec c "h") as [-> | Hh].
        -- rewrite (ReadShortArg_token self i tok "h") by assumption.
           reflexivity.
        -- destruct (token (raw_args_ self) (i + 1)) as [v |] eqn:Hv.
           ++ apply (ReadShortArg_match self i tok); auto.
           ++ apply (ReadShortArg_abort self i tok); auto.
    + unfold Parse_token.
      rewrite (bind_returns _ _ w w tok) by (apply index_token; exact Ht).
      rewrite Hl, Hs. unfold ret. rewrite Hself.
      now destruct (token (raw_args_ self) (i + 1)).
Qed.

(* ------------------------------------------------------------------ *)
(** ** The scan as a function of the token list *)

Lemma hd_skipn {A} (l : list A) (k : nat) :
  hd_error (skipn k l) = nth_error l k.
Proof.
  revert l; induction k as [| k IH]; intros [| x l]; cbn; auto.
Qed.

Lemma skipn_step {A} (l : list A) (k : nat) (x : A) :
  nth_error l k = Some x -> skipn k l = x :: skipn (S k) l.
Proof.
  revert l; induction k as [| k IH]; intros [| y l]; cbn; try discriminate.
  - now intros [= ->].
  - intros H; rewrite (IH l H); reflexivity.
Qed.

Lemma token_nat (raw : list string) (k : nat) :
  token raw (Z.of_nat k) = nth_error raw k.
Proof.
  unfold token; destruct (Z.ltb_spec (Z.of_nat k) 0) as [Hneg | _]; [lia |].
  now rewrite Nat2Z.id.
Qed.

Lemma set_args_same (self : Args.t) : set_args self (args_ self) = self.
Proof. now destruct self. Qed.

Lemma Parse_scan_tokens :
  forall (n k : nat) (self : Args.t) (w : io),
    (k + n = List.length (raw_args_ self))%nat ->
    Z.of_nat (List.length (raw_args_ self)) <= INT_MAX ->
    Parse_scan n (Z.of_nat k) self w
    = scan_result self w (scan_tokens (skipn k (raw_args_ self)) (args_ self)).
Proof.
  induction n as [| n IH]; intros k self w Hk Hmax.
  - replace k with (List.length (raw_args_ self)) by lia.
    rewrite skipn_all; cbn. now rewrite set_args_same.
  - destruct (nth_error (raw_args_ self) k) as [tok |] eqn:Htok.
    2: { apply nth_error_None in Htok; lia. }
    rewrite (skipn_step _ _ _ Htok).
    cbn [Parse_scan scan_tokens].
    assert (Hi : 0 <= Z.of_nat k < INT_MAX) by lia.
    assert (Ht : token (raw_args_ self) (Z.of_nat k) = Some tok)
      by now rewrite token_nat.
    unfold bind at 1.
    rewrite (Parse_token_spec self _ tok w Hi Ht).
    replace (Z.of_nat k + 1) with (Z.of_nat (S k)) by lia.
    rewrite token_nat, <- hd_skipn.
    destruct (triggers_help tok); [reflexivity |].
    destruct (overruns tok _ (args_ self)); [reflexivity |].
    rewrite IH by (cbn; lia).
    cbn [raw_args_ args_ set_args].
    now destruct (scan_tokens _ _).
Qed.

(** On a well-formed object the whole scan is [scan_tokens] on all the
    tokens. *)
Lemma Parse_scan_all (self : Args.t) (w : io) :
  well_formed self ->
  Parse_scan (Z.to_nat (num_args_ self)) 0 self w
  = scan_result self w (scan_tokens (raw_args_ self) (args_ self)).
Proof.
  intros [Hn Hmax]; rewrite Hn, Nat2Z.id.
  apply (Parse_scan_tokens _ 0%nat self w); [reflexivity | lia].
Qed.

(** The constructor copies [argv[1]] to [argv[argc - 1]] and counts
    them: the object it makes is well formed, and stays so when
    arguments are registered. *)
Lemma push_raw_copies argv :
  forall (n k : nat) (raw : list string) (w : io),
    (k + n <= List.length argv)%nat ->
    push_raw argv n (Z.of_nat k) raw w
    = (Returns (raw ++ firstn n (skipn k argv)), w).
Proof.
  induction n as [| n IH]; intros k raw w Hk.
  - cbn; unfold ret; now rewrite app_nil_r.
  - destruct (nth_error argv k) as [s |] eqn:Hs.
    2: { apply nth_error_None in Hs; lia. }
    cbn [push_raw].
    rewrite (bind_returns _ _ w w s).
    2: { apply index_token; fold (token argv (Z.of_nat k)).
         now rewrite token_nat. }
    replace (Z.of_nat k + 1) with (Z.of_nat (S k)) by lia.
    rewrite IH by lia.
    rewrite (skipn_step _ _ _ Hs); cbn [firstn].
    now rewrite <- app_assoc.
Qed.

Lemma From_well_formed (argc : Z) (argv : list string) (w : io) :
  0 <= argc <= INT_MAX ->
  Z.of_nat (List.length argv) = argc ->
  exists self,
    From argc argv w = (Returns self, w)
    /\ raw_args_ self = tl argv
    /\ args_ self = []
    /\ well_formed self.
Proof.
  intros Hargc Hlen; unfold From.
  destruct argv as [| prog rest].
  - cbn in Hlen; subst argc; cbn.
    eexists; repeat split; cbn; unfold INT_MAX; lia.
  - cbn [List.length] in Hlen.
    assert (Hn : Z.to_nat (argc - 1) = List.length rest) by lia.
    rewrite Hn.
    rewrite (bind_returns _ _ w w rest).
    2: { rewrite (push_raw_copies (prog :: rest) _ 1%nat [] w) by (cbn; lia).
         cbn [skipn app]; now rewrite firstn_all. }
    eexists; repeat split; cbn [raw_args_ num_args_ tl].
    + destruct (Z.eqb_spec argc 0); lia.
    + destruct (Z.eqb_spec argc 0); lia.
Qed.

Lemma Arg_well_formed (item : Argument.t) (self : Args.t) :
  well_formed self -> well_formed (Arg item self).
Proof. intros H; exact H. Qed.

(** The second loop stops at the first missing argument. *)
Lemma Parse_check_first self todo w :
  Parse_check self todo w
  = match find missing todo with
    | Some arg => Terminate self arg w
    | None => (Returns tt, w)
    end.
Proof.
  induction todo as [| a rest IH]; [reflexivity |].
  cbn [Parse_check find]; fold (missing a).
  destruct (missing a).
  - unfold Terminate; destruct (terminateBy_ self); reflexivity.
  - rewrite bind_ret; exact IH.
Qed.

Lemma Terminate_never_returns self arg w :
  forall u w', Terminate self arg w <> (Returns u, w').
Proof.
  intros u w'; unfold Terminate; destruct (terminateBy_ self); discriminate.
Qed.

Lemma Parse_well_formed (self : Args.t) (w : io) :
  well_formed self ->
  Parse self w
  = match scan_tokens (raw_args_ self) (args_ self) with
    | Returns args =>
        match find missing args with
        | Some arg => (Terminate (set_args self args) arg ;;;
                       ret (set_args self args)) w
        | None => (Returns (set_args self args), w)
        end
    | Exits _ => help_exit w
    | Throws e => (Throws e, w)
    | OutOfBounds => (OutOfBounds, w)
    end.
Proof.
  intros Hwf; unfold Parse, bind at 1.
  rewrite (Parse_scan_all self w Hwf).
  destruct (scan_tokens (raw_args_ self) (args_ self)) as [args | s | e |];
    try reflexivity.
  cbn [scan_result]. unfold bind at 1.
  rewrite Parse_check_first. cbn [args_ set_args].
  destruct (find missing args); reflexivity.
Qed.

(* ------------------------------------------------------------------ *)
(** ** What parsing never changes *)

Lemma decl_take v a : decl (take v a) = decl a.
Proof.
  unfold take, mark_given, Argument.IsOption, IsExpectingValue.
  destruct a as [n l s x r [] [] g]; reflexivity.
Qed.

Lemma decl_long_edit X v a : decl (long_edit X v a) = decl a.
Proof.
  unfold long_edit; destruct (String.eqb _ _); [apply decl_take | easy].
Qed.

Lemma decl_short_edit c v a : decl (short_edit c v a) = decl a.
Proof.
  unfold short_edit; destruct (Ascii.eqb _ _); [apply decl_take | easy].
Qed.

Lemma decl_mark_given a : decl (mark_given a) = decl a.
Proof.
  unfold mark_given; destruct (Argument.IsOption a); reflexivity.
Qed.

Lemma map_decl_pointwise (f : Argument.t -> Argument.t) args :
  (forall a, decl (f a) = decl a) ->
  map decl (map f args) = map decl args.
Proof.
  intros Hf; rewrite map_map; apply map_ext; exact Hf.
Qed.

Lemma map_decl_short_abort c args :
  map decl (short_abort c args) = map decl args.
Proof.
  induction args as [| a rest IH]; [reflexivity |].
  cbn [short_abort].
  destruct (Ascii.eqb _ _); [destruct (IsExpectingValue a) |]; cbn [map];
    rewrite ?decl_mark_given, ?IH; reflexivity.
Qed.

Lemma map_decl_token_edit tok next args :
  map decl (token_edit tok next args) = map decl args.
Proof.
  unfold token_edit.
  destruct (Str.starts_with "--" tok).
  - destruct (Str.substr 2 tok) as [X |]; [| reflexivity].
    destruct (Nat.eqb _ _); [reflexivity |].
    apply map_decl_pointwise, decl_long_edit.
  - destruct (Str.starts_with "-" tok); [| reflexivity].
    destruct (Str.at_ tok 1) as [c |]; [| reflexivity].
    destruct (Ascii.eqb c Str.nul); [reflexivity |].
    destruct next as [v |].
    + apply map_decl_pointwise, decl_short_edit.
    + apply map_decl_short_abort.
Qed.

Lemma wants_long_decl X args args' :
  map decl args = map decl args' ->
  wants_long X args = wants_long X args'.
Proof.
  revert args'; induction args as [| a rest IH]; intros [| b rest'];
    cbn [map]; try discriminate; [reflexivity |].
  unfold decl at 1 3; intros H; injection H as _ Hl _ _ He _ Hrest.
  cbn [wants_long existsb]; fold (wants_long X rest) (wants_long X rest').
  rewrite (IH _ Hrest).
  unfold GetLong, IsExpectingValue; now rewrite Hl, He.
Qed.

Lemma overruns_decl tok next args args' :
  map decl args = map decl args' ->
  overruns tok next args = overruns tok next args'.
Proof.
  intros H; unfold overruns; destruct next; [reflexivity |].
  destruct (Str.substr 2 tok); [| reflexivity].
  now rewrite (wants_long_decl _ _ _ H).
Qed.

(* ------------------------------------------------------------------ *)
(** ** C2: a long form at the end of the command line *)

Lemma overruns_inv tok args :
  overruns tok None args = true ->
  exists X, tok = "--" +++ X /\ X <> EmptyString
            /\ wants_long X args = true.
Proof.
  unfold overruns; intros H.
  apply andb_true_iff in H; destruct H as [Hl H].
  destruct (starts_with_inv _ _ Hl) as [X ->]; exists X.
  change (Str.substr 2 ("--" +++ X)) with (Some X) in H.
  apply andb_true_iff in H; destruct H as [Hz Hw].
  repeat split; [| exact Hw].
  intros ->; discriminate.
Qed.

Lemma overruns_long X args :
  X <> EmptyString -> wants_long X args = true ->
  overruns ("--" +++ X) None args = true.
Proof.
  intros Hne Hw; unfold overruns.
  rewrite long_token_prefix.
  change (Str.substr 2 ("--" +++ X)) with (Some X).
  cbv iota. rewrite (size_nonzero X Hne), Hw. reflexivity.
Qed.

Lemma triggers_help_long X :
  triggers_help ("--" +++ X) = String.eqb X "help".
Proof.
  unfold triggers_help; rewrite long_token_prefix; reflexivity.
Qed.

Lemma scan_tokens_overrun toks args :
  scan_tokens toks args = OutOfBounds <->
  exists pre last,
    toks = pre ++ [last]
    /\ Forall (fun t => triggers_help t = false) toks
    /\ overruns last None args = true.
Proof.
  revert args; induction toks as [| tok rest IH]; intros args.
  - split; [discriminate |].
    intros (pre & last & H & _); now destruct pre.
  - cbn [scan_tokens]; split.
    + destruct (triggers_help tok) eqn:Hh; [discriminate |].
      destruct (overruns tok (hd_error rest) args) eqn:Ho.
      * intros _; exists [], tok.
        assert (rest = []) as ->.
        { destruct rest; [reflexivity | discriminate Ho]. }
        repeat split; auto.
      * intros H; apply IH in H; destruct H as (pre & last & -> & Hall & Hov).
        exists (tok :: pre), last; repeat split; auto.
        now rewrite (overruns_decl _ _ _ _ (map_decl_token_edit _ _ _)) in Hov.
    + intros (pre & last & Heq & Hall & Hov).
      inversion Hall as [| ? ? Hh Hrest]; subst.
      rewrite Hh.
      destruct pre as [| t pre]; cbn in Heq; injection Heq as -> ->.
      * cbn [hd_error]; now rewrite Hov.
      * assert (Ho : overruns t (hd_error (pre ++ [last])) args = false).
        { now destruct pre. }
        rewrite Ho; apply IH.
        exists pre, last; repeat split; auto.
        now rewrite (overruns_decl _ _ _ _ (map_decl_token_edit _ _ _)).
Qed.

(** C2, as stated, fails: on [--help --out] the help ends the run before
    the last token is looked at. *)
Lemma C2_help_preempts_overrun : ~ last_long_token_overruns help_then_out.
Proof.
  intros H.
  specialize (H ["--help"%string] "out"%string (mkIO EmptyString EmptyString)).
  assert (Hwf : well_formed help_then_out).
  { split; [reflexivity | unfold INT_MAX; cbn; lia]. }
  specialize (H Hwf eq_refl eq_refl).
  discriminate H.
Qed.

(** C2, amended: [Parse] indexes the tokens out of range exactly when the
    last token is [--X] with [X] not empty and not [help], some
    registered argument with long form [X] expects a value, and no token
    before it shows the help. There is no bounds check on index [i+1]. *)
Theorem C2_overrun_exactly_at_last_long_token :
  forall (self : Args.t) (w : io),
    well_formed self ->
    (fst (Parse self w) = OutOfBounds <->
     exists pre X,
       raw_args_ self = pre ++ ["--" +++ X]
       /\ X <> EmptyString /\ X <> "help"%string
       /\ wants_long X (args_ self) = true
       /\ Forall (fun t => triggers_help t = false) pre).
Proof.
  intros self w Hwf; rewrite (Parse_well_formed self w Hwf).
  split.
  - intros H.
    assert (Hs : scan_tokens (raw_args_ self) (args_ self) = OutOfBounds).
    { destruct (scan_tokens (raw_args_ self) (args_ self)) as [args | s | e |];
        try discriminate H; [| reflexivity].
      destruct (find missing args) as [a |]; [| discriminate H].
      revert H; unfold bind, Terminate.
      destruct (terminateBy_ (set_args self args)); discriminate. }
    apply scan_tokens_overrun in Hs.
    destruct Hs as (pre & last & Hraw & Hall & Hov).
    destruct (overruns_inv _ _ Hov) as (X & -> & Hne & Hw).
    exists pre, X; rewrite Hraw in Hall.
    apply Forall_app in Hall; destruct Hall as [Hpre Hlast].
    inversion Hlast as [| ? ? Hh _]; subst.
    change (triggers_help ("--" +++ X) = false) in Hh.
    rewrite triggers_help_long in Hh; apply String.eqb_neq in Hh.
    repeat split; auto.
  - intros (pre & X & Hraw & Hne & Hnh & Hw & Hpre).
    assert (Hs : scan_tokens (raw_args_ self) (args_ self) = OutOfBounds).
    { apply scan_tokens_overrun.
      exists pre, ("--" +++ X); repeat split; auto.
      - rewrite Hraw; apply Forall_app; split; [exact Hpre |].
        constructor; [| constructor].
        rewrite triggers_help_long; now apply String.eqb_neq.
      - now apply overruns_long. }
    rewrite Hs; reflexivity.
Qed.

Lemma C2_overrun_exactly_at_last_long_token_witness :
  fst (Parse lone_out (mkIO EmptyString EmptyString)) = OutOfBounds <->
  exists pre X,
    raw_args_ lone_out = pre ++ ["--" +++ X]
    /\ X <> EmptyString /\ X <> "help"%string
    /\ wants_long X (args_ lone_out) = true
    /\ Forall (fun t => triggers_help t = false) pre.
Proof.
  apply (C2_overrun_exactly_at_last_long_token lone_out).
  split; [reflexivity | unfold INT_MAX; cbn; lia].
Defined.

(* ------------------------------------------------------------------ *)
(** ** C3: the check of the required arguments *)

Lemma short_abort_split c pre a post :
  Ascii.eqb (GetShort a) c = false ->
  exists pre' post',
    short_abort c (pre ++ a :: post) = pre' ++ a :: post'
    /\ map decl pre' = map decl pre.
Proof.
  intros Ha; induction pre as [| b pre IH].
  - exists [], (short_abort c post); cbn [app short_abort].
    now rewrite Ha.
  - destruct IH as (pre' & post' & E & Hd).
    cbn [app short_abort]; destruct (Ascii.eqb (GetShort b) c).
    + destruct (IsExpectingValue b).
      * exists (b :: pre), post; split; reflexivity.
      * exists (mark_given b :: pre'), post'; rewrite E; split;
          [reflexivity |].
        cbn [map]; now rewrite decl_mark_given, Hd.
    + exists (b :: pre'), post'; rewrite E; split; [reflexivity |].
      cbn [map]; now rewrite Hd.
Qed.

Lemma token_edit_split tok next pre a post :
  names tok a = false ->
  exists pre' post',
    token_edit tok next (pre ++ a :: post) = pre' ++ a :: post'
    /\ map decl pre' = map decl pre.
Proof.
  unfold names, token_edit; intros Hn.
  assert (Hid : exists pre' post',
             pre ++ a :: post = pre' ++ a :: post'
             /\ map decl pre' = map decl pre)
    by (exists pre, post; split; reflexivity).
  destruct (Str.starts_with "--" tok).
  - destruct (Str.substr 2 tok) as [X |]; [| exact Hid].
    destruct (Nat.eqb (Str.size X) 0); [exact Hid |].
    cbn [negb andb] in Hn.
    exists (map (long_edit X (or_empty next)) pre),
      (map (long_edit X (or_empty next)) post).
    rewrite map_app; cbn [map]; unfold long_edit at 2; rewrite Hn.
    split; [reflexivity | apply map_decl_pointwise, decl_long_edit].
  - destruct (Str.starts_with "-" tok); [| exact Hid].
    destruct (Str.at_ tok 1) as [c |]; [| exact Hid].
    destruct (Ascii.eqb c Str.nul); [exact Hid |].
    cbn [negb andb] in Hn.
    destruct next as [v |].
    + exists (map (short_edit c v) pre), (map (short_edit c v) post).
      rewrite map_app; cbn [map]; unfold short_edit at 2; rewrite Hn.
      split; [reflexivity | apply map_decl_pointwise, decl_short_edit].
    + now apply short_abort_split.
Qed.

Lemma scan_tokens_untouched toks :
  forall args l pre a post,
    scan_tokens toks args = Returns l ->
    args = pre ++ a :: post ->
    Forall (fun tok => names tok a = false) toks ->
    exists pre' post',
      l = pre' ++ a :: post' /\ map decl pre' = map decl pre.
Proof.
  induction toks as [| tok rest IH]; intros args l pre a post Hs -> Hall.
  - injection Hs as <-; exists pre, post; split; reflexivity.
  - inversion Hall as [| ? ? Hn Hrest]; subst.
    cbn [scan_tokens] in Hs.
    destruct (triggers_help tok); [discriminate |].
    destruct (overruns tok (hd_error rest) (pre ++ a :: post));
      [discriminate |].
    destruct (token_edit_split tok (hd_error rest) pre a post Hn)
      as (pre1 & post1 & E & Hd).
    destruct (IH _ _ _ _ _ Hs E Hrest) as (pre2 & post2 & -> & Hd2).
    exists pre2, post2; split; [reflexivity | congruence].
Qed.

Lemma find_missing_first pre a post :
  Forall (fun b => missing b = false) pre ->
  missing a = true ->
  find missing (pre ++ a :: post) = Some a.
Proof.
  intros Hpre Ha; induction Hpre as [| b pre Hb _ IH]; cbn [app find].
  - now rewrite Ha.
  - now rewrite Hb.
Qed.

Lemma not_required_decl pre pre' :
  map decl pre' = map decl pre ->
  Forall (fun b => IsRequired b = false) pre ->
  Forall (fun b => missing b = false) pre'.
Proof.
  revert pre; induction pre' as [| b' pre' IH]; intros [| b pre] Hd Hall;
    cbn [map] in Hd; try discriminate Hd; [constructor |].
  unfold decl at 1 3 in Hd; injection Hd as _ _ _ Hr _ _ Hrest'; constructor.
  - inversion Hall as [| ? ? Hb _]; subst.
    unfold missing, IsRequired in *; now rewrite Hr, Hb.
  - inversion Hall; subst; now apply (IH pre).
Qed.

(** C3, as stated, fails: with two required arguments missing, the run
    ends in the call for [in]; [out] is never reported. *)
Lemma C3_second_missing_argument_not_reported :
  ~ every_missing_argument_reported two_required.
Proof.
  intros H.
  specialize (H (mkIO EmptyString EmptyString) two_required
                (mkIO EmptyString EmptyString)
                (Required (ExpectsValue (SetLong "out" (WithName "out"))))
                eq_refl (or_intror (or_introl eq_refl)) eq_refl eq_refl).
  discriminate H.
Qed.

(** C3, amended: once the scan has completed, [Terminate] is called for
    the first required argument, in registration order, whose value is
    empty, and for no other: the call does not return under either
    policy, so [Parse] ends there, with the diagnostic naming that
    argument and exit status 1, or with the exception. In particular a
    required argument registered without a value that no token names,
    and that no required argument precedes, is the one reported. *)
Theorem C3_first_missing_argument_terminates :
  forall (self self' : Args.t) (w w' : io) (pre post : list Argument.t)
         (a : Argument.t),
    Parse_scan (Z.to_nat (num_args_ self)) 0 self w = (Returns self', w') ->
    IsRequired a = true -> GetValue a = None ->
    (args_ self' = pre ++ a :: post
     /\ Forall (fun b => missing b = false) pre)
    \/ (well_formed self
        /\ args_ self = pre ++ a :: post
        /\ Forall (fun b => IsRequired b = false) pre
        /\ Forall (fun tok => names tok a = false) (raw_args_ self)) ->
    Parse self w = (Terminate self' a ;;; ret self') w'
    /\ (forall r w'', Parse self w <> (Returns r, w''))
    /\ Parse self w
       = match terminateBy_ self' with
         | Exit => (Exits EXIT_FAILURE,
                    mkIO (cout w') (cerr w' +++ missing_message a))
         | Exception => (Throws (CString "Exception"), w')
         end.
Proof.
  intros self self' w w' pre post a Hscan Hreq Hval Hcase.
  assert (Hmiss : missing a = true).
  { unfold missing; now rewrite Hreq, Hval. }
  assert (Hfind : find missing (args_ self') = Some a).
  { destruct Hcase as [[Hargs Hpre] | (Hwf & Hargs & Hpre & Htoks)].
    - rewrite Hargs; now apply find_missing_first.
    - rewrite (Parse_scan_all self w Hwf) in Hscan.
      destruct (scan_tokens (raw_args_ self) (args_ self)) as [l | | |] eqn:El;
        try discriminate Hscan.
      cbn [scan_result] in Hscan; injection Hscan as <- _.
      destruct (scan_tokens_untouched _ _ _ _ _ _ El Hargs Htoks)
        as (pre' & post' & -> & Hd).
      cbn [args_ set_args]; apply find_missing_first; [| exact Hmiss].
      now apply (not_required_decl pre). }
  assert (E : Parse self w = (Terminate self' a ;;; ret self') w').
  { unfold Parse. rewrite (bind_returns _ _ _ _ _ Hscan).
    unfold bind at 1. rewrite Parse_check_first, Hfind.
    unfold bind, Terminate; destruct (terminateBy_ self'); reflexivity. }
  split; [exact E | split].
  - intros r w''; rewrite E; unfold bind, Terminate.
    destruct (terminateBy_ self'); discriminate.
  - rewrite E; unfold bind, Terminate.
    destruct (terminateBy_ self'); reflexivity.
Qed.

Lemma C3_first_missing_argument_terminates_witness :
  let a := Required (ExpectsValue (SetLong "in" (WithName "in"))) in
  let w := mkIO EmptyString EmptyString in
  Parse two_required w = (Terminate two_required a ;;; ret two_required) w
  /\ (forall r w'', Parse two_required w <> (Returns r, w''))
  /\ Parse two_required w
     = match terminateBy_ two_required with
       | Exit => (Exits EXIT_FAILURE,
                  mkIO (cout w) (cerr w +++ missing_message a))
       | Exception => (Throws (CString "Exception"), w)
       end.
Proof.
  intros a w.
  apply (C3_first_missing_argument_terminates
           two_required two_required w w []
           [Required (ExpectsValue (SetLong "out" (WithName "out")))] a).
  - reflexivity.
  - reflexivity.
  - reflexivity.
  - right; repeat split.
    + unfold INT_MAX; cbn; lia.
    + constructor.
    + constructor.
Defined.

(* ------------------------------------------------------------------ *)
(** ** C4: the help *)

Lemma scan_tokens_help toks :
  forall args,
    Exists (fun t => triggers_help t = true) toks ->
    scan_tokens toks args = Exits 0.
Proof.
  induction toks as [| tok rest IH]; intros args Hex.
  - inversion Hex.
  - cbn [scan_tokens]; destruct (triggers_help tok) eqn:Hh; [reflexivity |].
    inversion Hex as [? ? Hhere | ? ? Hlater]; subst; [congruence |].
    assert (Ho : overruns tok (hd_error rest) args = false).
    { destruct rest; [inversion Hlater | reflexivity]. }
    rewrite Ho; now apply IH.
Qed.

(** C4: when [--help] or [-h] is among the tokens, whatever the registered
    arguments, [Parse] writes the help text and exits with status 0: the
    run ends there, the required arguments are not checked and nothing is
    written to [std::cerr]. *)
Theorem C4_help_is_terminal :
  forall (self : Args.t) (w : io),
    well_formed self ->
    In "--help"%string (raw_args_ self) \/ In "-h"%string (raw_args_ self) ->
    Parse self w = (Exits 0, mkIO (cout w +++ help_message) (cerr w)).
Proof.
  intros self w Hwf Hin; rewrite (Parse_well_formed self w Hwf).
  rewrite scan_tokens_help; [reflexivity |].
  apply Exists_exists; destruct Hin as [Hin | Hin].
  - exists "--help"%string; split; [exact Hin | reflexivity].
  - exists "-h"%string; split; [exact Hin | reflexivity].
Qed.

Lemma C4_help_is_terminal_witness :
  Parse help_with_missing (mkIO EmptyString EmptyString)
  = (Exits 0, mkIO help_message EmptyString).
Proof.
  apply (C4_help_is_terminal help_with_missing (mkIO EmptyString EmptyString)).
  - split; [reflexivity | unfold INT_MAX; cbn; lia].
  - right; left; reflexivity.
Defined.

(* ------------------------------------------------------------------ *)
(** ** C5: the index advances by one *)

Lemma names_take tok next a args :
  names tok a = true ->
  In a args ->
  In (take (or_empty next) a) (token_edit tok next args)
  \/ (next = None /\ Str.starts_with "--" tok = false).
Proof.
  unfold names, token_edit; intros Hn Hin.
  destruct (Str.starts_with "--" tok).
  - left.
    destruct (Str.substr 2 tok) as [X |]; [| discriminate].
    apply andb_true_iff in Hn; destruct Hn as [Hz Hl].
    apply negb_true_iff in Hz; rewrite Hz.
    apply in_map_iff; exists a; split; [| exact Hin].
    unfold long_edit; now rewrite Hl.
  - destruct (Str.starts_with "-" tok); [| discriminate].
    destruct (Str.at_ tok 1) as [c |]; [| discriminate].
    apply andb_true_iff in Hn; destruct Hn as [Hz Hs].
    apply negb_true_iff in Hz; rewrite Hz.
    destruct next as [v |]; [left | right; now split].
    apply in_map_iff; exists a; split; [| exact Hin].
    unfold short_edit; now rewrite Hs.
Qed.

Lemma Parse_token_help self i tok w :
  token (raw_args_ self) i = Some tok ->
  triggers_help tok = true ->
  Parse_token self i w = help_exit w.
Proof.
  unfold triggers_help; intros Ht Hh.
  destruct (Str.starts_with "--" tok) eqn:Hl.
  - apply String.eqb_eq in Hh; subst tok.
    rewrite (Parse_token_long self i "help") by exact Ht.
    exact (ReadLongArg_help self i w Ht).
  - destruct (Str.starts_with "-" tok) eqn:Hs; [| discriminate].
    rewrite (Parse_token_short self i tok) by assumption.
    destruct (Str.at_ tok 1) as [c |] eqn:Hc; [| discriminate].
    apply Ascii.eqb_eq in Hh; subst c.
    rewrite (ReadShortArg_token self i tok "h") by assumption.
    reflexivity.
Qed.

(** C5: when the token at index [i] takes the token [v] at index [i+1]
    as the value of an argument, the scan goes on at index [i+1]: [v] is
    looked at again as a token of its own, by [ReadLongArg] when it
    starts with two dashes and by [ReadShortArg] when it starts with
    one; it ends the run when it shows the help, and as [--Y] it updates
    the arguments registered with the long form [Y]. *)
Theorem C5_value_token_is_scanned_again :
  forall (self : Args.t) (i : Z) (tok v : string) (a : Argument.t)
         (n : nat) (w : io),
    0 <= i < INT_MAX ->
    token (raw_args_ self) i = Some tok ->
    token (raw_args_ self) (i + 1) = Some v ->
    triggers_help tok = false ->
    In a (args_ self) -> names tok a = true -> IsExpectingValue a = true ->
    exists self1 a',
      Parse_token self i w = (Returns self1, w)
      /\ In a' (args_ self1) /\ decl a' = decl a /\ value_ a' = v
      /\ token (raw_args_ self1) (i + 1) = Some v
      /\ Parse_scan (S (S n)) i self w
         = (self2 <- Parse_token self1 (i + 1) ;;
            Parse_scan n (i + 1 + 1) self2) w
      /\ (Str.starts_with "--" v = true ->
          Parse_token self1 (i + 1) w = ReadLongArg self1 (i + 1) w)
      /\ (Str.starts_with "--" v = false -> Str.starts_with "-" v = true ->
          Parse_token self1 (i + 1) w = ReadShortArg self1 (i + 1) w)
      /\ (triggers_help v = true ->
          Parse_scan (S (S n)) i self w = help_exit w)
      /\ (forall Y v2,
             v = "--" +++ Y -> Y <> EmptyString -> Y <> "help"%string ->
             token (raw_args_ self1) (i + 1 + 1) = Some v2
             \/ wants_long Y (args_ self1) = false ->
             Parse_token self1 (i + 1) w
             = (Returns (set_args self1
                           (map (long_edit Y v2) (args_ self1))), w)).
Proof.
  intros self i tok v a n w Hi Ht Hv Hh Hin Hn He.
  pose proof (Parse_token_spec self i tok w Hi Ht) as Hstep.
  rewrite Hh, Hv in Hstep; cbn [overruns] in Hstep.
  set (self1 := set_args self (token_edit tok (Some v) (args_ self))) in *.
  assert (Hscan : Parse_scan (S (S n)) i self w
                  = (self2 <- Parse_token self1 (i + 1) ;;
                     Parse_scan n (i + 1 + 1) self2) w).
  { cbn [Parse_scan]. now rewrite (bind_returns _ _ _ _ _ Hstep). }
  exists self1, (take v a); repeat split; auto.
  - destruct (names_take tok (Some v) a (args_ self) Hn Hin) as [H | [H _]];
      [exact H | discriminate].
  - apply decl_take.
  - now apply take_value.
  - intros Hl; destruct (starts_with_inv _ _ Hl) as [Y ->].
    now apply (Parse_token_long self1 (i + 1) Y).
  - intros Hl Hs; now apply (Parse_token_short self1 (i + 1) v).
  - intros Hhv; rewrite Hscan; unfold bind.
    rewrite (Parse_token_help self1 (i + 1) v w Hv Hhv); reflexivity.
  - intros Y v2 -> Hne Hnh Hnext.
    rewrite (Parse_token_long self1 (i + 1) Y w Hv).
    now apply ReadLongArg_match.
Qed.

Lemma C5_value_token_is_scanned_again_witness :
  let self := value_with_dashes in
  let a := ExpectsValue (SetLong "name" (WithName "name")) in
  let v := "--verbose"%string in
  let w := mkIO EmptyString EmptyString in
  exists self1 a',
    Parse_token self 0 w = (Returns self1, w)
    /\ In a' (args_ self1) /\ decl a' = decl a /\ value_ a' = v
    /\ token (raw_args_ self1) (0 + 1) = Some v
    /\ Parse_scan 2 0 self w
       = (self2 <- Parse_token self1 (0 + 1) ;;
          Parse_scan 0 (0 + 1 + 1) self2) w
    /\ (Str.starts_with "--" v = true ->
        Parse_token self1 (0 + 1) w = ReadLongArg self1 (0 + 1) w)
    /\ (Str.starts_with "--" v = false -> Str.starts_with "-" v = true ->
        Parse_token self1 (0 + 1) w = ReadShortArg self1 (0 + 1) w)
    /\ (triggers_help v = true -> Parse_scan 2 0 self w = help_exit w)
    /\ (forall Y v2,
           v = "--" +++ Y -> Y <> EmptyString -> Y <> "help"%string ->
           token (raw_args_ self1) (0 + 1 + 1) = Some v2
           \/ wants_long Y (args_ self1) = false ->
           Parse_token self1 (0 + 1) w
           = (Returns (set_args self1
                         (map (long_edit Y v2) (args_ self1))), w)).
Proof.
  intros self a v w.
  apply (C5_value_token_is_scanned_again self 0 "--name" v a 0 w).
  - unfold INT_MAX; lia.
  - reflexivity.
  - reflexivity.
  - reflexivity.
  - left; reflexivity.
  - reflexivity.
  - reflexivity.
Defined.

(* ------------------------------------------------------------------ *)
(** ** C6: a short form at the end of the command line *)

Lemma short_abort_first c before a after :
  GetShort a = c -> IsExpectingValue a = true ->
  Forall (fun b => GetShort b = c -> IsExpectingValue b = false) before ->
  short_abort c (before ++ a :: after)
  = map (mark_short c) before ++ a :: after.
Proof.
  intros Hc He Hall; induction Hall as [| b before Hb _ IH].
  - cbn [app map short_abort].
    apply Ascii.eqb_eq in Hc; now rewrite Hc, He.
  - cbn [app map short_abort]; unfold mark_short at 1.
    destruct (Ascii.eqb_spec (GetShort b) c) as [E | E].
    + rewrite (Hb E), IH; reflexivity.
    + rewrite IH; reflexivity.
Qed.

Lemma mark_short_other c before :
  Forall (fun b => GetShort b <> c) before ->
  map (mark_short c) before = before.
Proof.
  intros Hall; induction Hall as [| b before Hb _ IH]; [reflexivity |].
  cbn [map]; unfold mark_short at 1.
  apply Ascii.eqb_neq in Hb; now rewrite Hb, IH.
Qed.

(** C6, as stated, fails: on [flag_then_value] the option registered
    first has its given-flag set before the loop reaches the argument
    that expects a value and returns. *)
Lemma C6_earlier_flag_is_set : ~ short_abort_sets_nothing flag_then_value.
Proof.
  intros H.
  assert (Hwf : well_formed flag_then_value).
  { split; [reflexivity | unfold INT_MAX; cbn; lia]. }
  specialize (H [] "-x"%string "x"%char
                (ExpectsValue (SetShort "x" (WithName "value")))
                (mkIO EmptyString EmptyString)
                Hwf eq_refl eq_refl eq_refl eq_refl
                (or_intror (or_introl eq_refl)) eq_refl eq_refl).
  discriminate H.
Qed.

(** C6, amended: when the last token is [-c...] ([c] not [h]) and [a] is
    the first registered argument with short form [c] that expects a
    value, [ReadShortArg] finds index [i+1] out of range and returns: no
    value is set, [a] and every argument registered after it are left as
    they were, and only the options with short form [c] registered
    before [a] have their given-flag set; when no argument before [a]
    has the short form [c], nothing changes at all. [ReadLongArg] has no
    such check and indexes out of range in the same position. *)
Theorem C6_short_form_at_end_aborts :
  forall (self : Args.t) (pre : list string) (tok : string) (c : ascii)
         (before after : list Argument.t) (a : Argument.t) (w : io),
    well_formed self ->
    raw_args_ self = pre ++ [tok] ->
    Str.starts_with "--" tok = false -> Str.starts_with "-" tok = true ->
    Str.at_ tok 1 = Some c -> c <> Str.nul -> c <> "h"%char ->
    args_ self = before ++ a :: after ->
    GetShort a = c -> IsExpectingValue a = true ->
    Forall (fun b => GetShort b = c -> IsExpectingValue b = false) before ->
    let i := num_args_ self - 1 in
    ReadShortArg self i w
    = (Returns (set_args self (map (mark_short c) before ++ a :: after)), w)
    /\ map value_ (map (mark_short c) before ++ a :: after)
       = map value_ (args_ self)
    /\ (Forall (fun b => GetShort b <> c) before ->
        ReadShortArg self i w = (Returns self, w))
    /\ (forall (other : Args.t) (X : string),
           token (raw_args_ other) i = Some ("--" +++ X) ->
           token (raw_args_ other) (i + 1) = None ->
           X <> EmptyString -> X <> "help"%string ->
           wants_long X (args_ other) = true ->
           ReadLongArg other i w = (OutOfBounds, w)).
Proof.
  intros self pre tok c before after a w [Hn Hmax] Hraw Hl Hs Hc Hnul Hh
         Hargs Ha He Hfirst i.
  assert (Hlen : Z.of_nat (List.length (raw_args_ self))
                 = Z.of_nat (List.length pre) + 1).
  { rewrite Hraw, length_app; cbn; lia. }
  assert (Hi : 0 <= i < INT_MAX) by (unfold i; lia).
  assert (Ht : token (raw_args_ self) i = Some tok).
  { unfold i; replace (num_args_ self - 1) with (Z.of_nat (List.length pre))
      by lia.
    rewrite token_nat, Hraw, nth_error_app2, Nat.sub_diag by lia.
    reflexivity. }
  assert (Hv : token (raw_args_ self) (i + 1) = None).
  { unfold i; replace (num_args_ self - 1 + 1)
      with (Z.of_nat (List.length (raw_args_ self))) by lia.
    rewrite token_nat; apply nth_error_None; lia. }
  assert (E : ReadShortArg self i w
              = (Returns (set_args self
                            (map (mark_short c) before ++ a :: after)), w)).
  { rewrite (ReadShortArg_abort self i tok c w) by assumption.
    rewrite Hargs, short_abort_first by assumption. reflexivity. }
  split; [exact E | split; [| split]].
  - rewrite Hargs, !map_app, map_map; f_equal.
    apply map_ext; intros b; unfold mark_short, mark_given.
    destruct (Ascii.eqb _ _); [| reflexivity].
    destruct (Argument.IsOption b); reflexivity.
  - intros Hother; rewrite E, mark_short_other, <- Hargs by assumption.
    now rewrite set_args_same.
  - intros other X Hto Hvo Hne Hnh Hw.
    now apply (ReadLongArg_overrun other i X).
Qed.

Lemma C6_short_form_at_end_aborts_witness :
  ReadShortArg lone_short 0 (mkIO EmptyString EmptyString)
  = (Returns lone_short, mkIO EmptyString EmptyString).
Proof.
  refine (proj1 (proj2 (proj2
    (C6_short_form_at_end_aborts lone_short [] "-o" "o" []  []
       (ExpectsValue (SetShort "o" (WithName "out")))
       (mkIO EmptyString EmptyString) _ eq_refl eq_refl eq_refl eq_refl
       _ _ eq_refl eq_refl eq_refl (Forall_nil _)))) (Forall_nil _)).
  - split; [reflexivity | unfold INT_MAX; cbn; lia].
  - discriminate.
  - discriminate.
Defined.

(* ------------------------------------------------------------------ *)
(** ** C7: the exception *)

(** C7 does not hold of the code: under the [Exception] policy
    [Terminate] throws the string literal ["Exception"] whatever the
    argument, so what is thrown does not tell which argument was
    missing, while the [Exit] policy names it in its diagnostic. *)
Theorem C7_exception_carries_no_argument :
  forall (self : Args.t) (a b : Argument.t) (w : io),
    let self' := SetTerminationType Exception self in
    Terminate self' a w = (Throws (CString "Exception"), w)
    /\ Terminate self' a w = Terminate self' b w
    /\ Terminate (SetTerminationType Exit self) a w
       = (Exits EXIT_FAILURE, mkIO (cout w) (cerr w +++ missing_message a)).
Proof.
  intros self a b w self'; repeat split.
Qed.

(* ------------------------------------------------------------------ *)
(** ** C9: an argument is a flag or takes a value *)

Lemma apply_flag_or_value o a :
  flag_or_value a -> flag_or_value (Argument.apply o a).
Proof.
  unfold flag_or_value; destruct o; cbn; auto.
Qed.

Lemma run_flag_or_value ops :
  forall a, flag_or_value a -> flag_or_value (Argument.run ops a).
Proof.
  unfold Argument.run.
  induction ops as [| o ops IH]; intros a Ha; [exact Ha |].
  cbn [fold_left]; apply IH, apply_flag_or_value, Ha.
Qed.

Lemma run_stays_value ops :
  forall a,
    expects_value_ a = true -> is_option_ a = false ->
    expects_value_ (Argument.run ops a) = true
    /\ is_option_ (Argument.run ops a) = false.
Proof.
  unfold Argument.run.
  induction ops as [| o ops IH]; intros a He Ho; [now split |].
  cbn [fold_left]; apply IH; destruct o; cbn; auto.
Qed.

(** C9: an argument made by [WithName] is an option that expects no
    value; [ExpectsValue] sets the one flag and clears the other; after
    any sequence of public calls an argument that expects a value is not
    an option; and once [ExpectsValue] has been called no sequence of
    public calls makes the argument an option again. *)
Theorem C9_value_argument_is_never_option :
  forall (name : string) (ops more : list Argument.op),
    let fresh := WithName name in
    let a := Argument.run ops fresh in
    (Argument.IsOption fresh = true /\ IsExpectingValue fresh = false)
    /\ (IsExpectingValue (ExpectsValue a) = true
        /\ Argument.IsOption (ExpectsValue a) = false)
    /\ (IsExpectingValue a = true -> Argument.IsOption a = false)
    /\ (IsExpectingValue (Argument.run more (ExpectsValue a)) = true
        /\ Argument.IsOption (Argument.run more (ExpectsValue a)) = false).
Proof.
  intros name ops more fresh a.
  split; [split; reflexivity | split; [split; reflexivity | split]].
  - apply (run_flag_or_value ops fresh); unfold flag_or_value; discriminate.
  - apply run_stays_value; reflexivity.
Qed.

(* ------------------------------------------------------------------ *)
(** ** C8: [IsGiven] by name *)

Lemma IsGiven_loop_find args arg_name :
  IsGiven_loop args arg_name
  = match find (named arg_name) args with
    | Some a => Argument.IsOption a && Argument.IsGiven a
    | None => false
    end.
Proof.
  induction args as [| a rest IH]; [reflexivity |].
  cbn [IsGiven_loop find]; unfold named at 1.
  destruct (String.eqb (GetName a) arg_name); [reflexivity | exact IH].
Qed.

(** C8: [IsGiven self name] is true exactly when the first registered
    argument called [name] is an option whose given-flag is set; it is
    false when no registered argument is called [name], and false when
    that first argument expects a value, whatever value it holds (the
    argument having been made by [WithName] and public calls). *)
Theorem C8_IsGiven_first_option_by_name :
  forall (self : Args.t) (arg_name : string),
    (Args.IsGiven self arg_name = true <->
     exists a, find (named arg_name) (args_ self) = Some a
               /\ Argument.IsOption a = true /\ Argument.IsGiven a = true)
    /\ (Forall (fun a => GetName a <> arg_name) (args_ self) ->
        Args.IsGiven self arg_name = false)
    /\ (forall (n v : string) (ops : list Argument.op),
           find (named arg_name) (args_ self)
           = Some (SetValue v (Argument.run ops (WithName n))) ->
           IsExpectingValue (Argument.run ops (WithName n)) = true ->
           Args.IsGiven self arg_name = false).
Proof.
  intros self arg_name; unfold Args.IsGiven; rewrite IsGiven_loop_find.
  split; [| split].
  - split.
    + destruct (find (named arg_name) (args_ self)) as [a |];
        [| discriminate].
      intros H; apply andb_true_iff in H; exists a; tauto.
    + intros (a & -> & Ho & Hg); now rewrite Ho, Hg.
  - intros Hall.
    destruct (find (named arg_name) (args_ self)) as [a |] eqn:E;
      [| reflexivity].
    apply find_some in E; destruct E as [Hin Hname].
    rewrite Forall_forall in Hall; specialize (Hall a Hin).
    apply String.eqb_eq in Hname; contradiction.
  - intros n v ops -> He.
    assert (Ho : is_option_ (Argument.run ops (WithName n)) = false).
    { apply (run_flag_or_value ops (WithName n)); [| exact He].
      unfold flag_or_value; discriminate. }
    unfold Argument.IsOption; cbn; now rewrite Ho.
Qed.

(* ------------------------------------------------------------------ *)
(** ** C10: parsing twice *)

Lemma take_take v v' a : take v' (take v a) = take v' a.
Proof.
  unfold take, mark_given, Argument.IsOption, IsExpectingValue.
  destruct a as [n l s x r [] [] g]; reflexivity.
Qed.

Lemma map_decl_apply_plan p :
  forall args, map decl (apply_plan p args) = map decl args.
Proof.
  induction p as [| o p IH]; intros [| a rest]; try reflexivity.
  cbn [apply_plan map]; rewrite IH.
  destruct o; [rewrite decl_take |]; reflexivity.
Qed.

Lemma apply_plan_twice p :
  forall args, apply_plan p (apply_plan p args) = apply_plan p args.
Proof.
  induction p as [| o p IH]; intros [| a rest]; try reflexivity.
  cbn [apply_plan]; rewrite IH.
  destruct o; [rewrite take_take |]; reflexivity.
Qed.

Lemma apply_then_plan p :
  forall q args,
    apply_plan q (apply_plan p args) = apply_plan (then_plan p q) args.
Proof.
  induction p as [| o p IH]; intros [| o' q] [| a rest]; try reflexivity.
  cbn [apply_plan then_plan]; rewrite IH.
  destruct o', o; rewrite ?take_take; reflexivity.
Qed.

Lemma plan_like_id : plan_like (fun args => args).
Proof. exists (fun _ => []); intros args; now destruct args. Qed.

Lemma plan_like_long X v : plan_like (map (long_edit X v)).
Proof.
  exists (long_plan X v); intros args.
  induction args as [| a rest IH]; [reflexivity |].
  cbn [map long_plan apply_plan]; fold (long_plan X v (map decl rest)).
  rewrite <- IH; unfold long_edit at 1, GetLong; cbn [decl d_long].
  now destruct (String.eqb (long_ a) X).
Qed.

Lemma plan_like_short c v : plan_like (map (short_edit c v)).
Proof.
  exists (short_plan c v); intros args.
  induction args as [| a rest IH]; [reflexivity |].
  cbn [map short_plan apply_plan]; fold (short_plan c v (map decl rest)).
  rewrite <- IH; unfold short_edit at 1, GetShort; cbn [decl d_short].
  now destruct (Ascii.eqb (short_ a) c).
Qed.

Lemma plan_like_abort c : plan_like (short_abort c).
Proof.
  exists (abort_plan c); intros args.
  induction args as [| a rest IH]; [reflexivity |].
  cbn [map short_abort abort_plan]; unfold GetShort, IsExpectingValue.
  cbn [decl d_short d_expects].
  destruct (Ascii.eqb (short_ a) c).
  - destruct (expects_value_ a) eqn:He; [reflexivity |].
    cbn [apply_plan]; rewrite <- IH.
    unfold take, IsExpectingValue; now rewrite He.
  - cbn [apply_plan]; now rewrite <- IH.
Qed.

Lemma plan_like_decl f args :
  plan_like f -> map decl (f args) = map decl args.
Proof.
  intros [pf Hf]; rewrite Hf; apply map_decl_apply_plan.
Qed.

Lemma plan_like_compose f g :
  plan_like f -> plan_like g -> plan_like (fun args => g (f args)).
Proof.
  intros [pf Hf] [pg Hg].
  exists (fun ds => then_plan (pf ds) (pg ds)); intros args.
  rewrite Hg, Hf, map_decl_apply_plan; apply apply_then_plan.
Qed.

Lemma plan_like_twice f args :
  plan_like f -> f (f args) = f args.
Proof.
  intros [pf Hf]; rewrite (Hf (f args)), Hf, map_decl_apply_plan.
  apply apply_plan_twice.
Qed.

Lemma wants_short_decl c args args' :
  map decl args = map decl args' ->
  wants_short c args = wants_short c args'.
Proof.
  revert args'; induction args as [| a rest IH]; intros [| b rest'];
    cbn [map]; try discriminate; [reflexivity |].
  unfold decl at 1 3; intros H; injection H as _ _ Hs _ He _ Hrest.
  cbn [wants_short existsb]; fold (wants_short c rest) (wants_short c rest').
  rewrite (IH _ Hrest).
  unfold GetShort, IsExpectingValue; now rewrite Hs, He.
Qed.

Lemma ReadShortArg_loop_run self i tok c w :
  token (raw_args_ self) i = Some tok ->
  Str.at_ tok 1 = Some c ->
  c <> Str.nul -> c <> "h"%char ->
  ReadShortArg self i w
  = (args <- ReadShortArg_loop (raw_args_ self) i c (args_ self) ;;
     ret (set_args self args)) w.
Proof.
  intros Ht Hc Hn Hh; rewrite (ReadShortArg_token self i tok c) by assumption.
  apply Ascii.eqb_neq in Hn, Hh; now rewrite Hn, Hh, bind_ret.
Qed.

(** A step that returns writes nothing and updates the arguments by a
    plan that depends on the tokens and the declarations only: on any
    object with the same tokens and declarations the step returns too,
    with the same plan applied. *)
Lemma Parse_token_uniform self i w self' w' :
  Parse_token self i w = (Returns self', w') ->
  w' = w
  /\ exists f,
      plan_like f
      /\ forall t w2,
          raw_args_ t = raw_args_ self ->
          map decl (args_ t) = map decl (args_ self) ->
          Parse_token t i w2 = (Returns (set_args t (f (args_ t))), w2).
Proof.
  intros H.
  destruct (token (raw_args_ self) i) as [tok |] eqn:Ht.
  2: { unfold Parse_token, bind in H.
       rewrite index_none in H by exact Ht. discriminate. }
  assert (Ht' : forall t, raw_args_ t = raw_args_ self ->
                          token (raw_args_ t) i = Some tok)
    by (intros t ->; exact Ht).
  destruct (Str.starts_with "--" tok) eqn:Hl;
    [| destruct (Str.starts_with "-" tok) eqn:Hs].
  - (* long form *)
    destruct (starts_with_inv _ _ Hl) as [X ->].
    rewrite (Parse_token_long self i X w Ht) in H.
    destruct (String.eqb_spec X EmptyString) as [-> | Hne].
    + rewrite (ReadLongArg_token self i EmptyString w Ht) in H.
      cbn in H; injection H as <- <-.
      split; [reflexivity |].
      exists (fun args => args); split; [apply plan_like_id |].
      intros t w2 Hraw Hd.
      rewrite (Parse_token_long t i EmptyString w2 (Ht' t Hraw)),
        (ReadLongArg_token t i EmptyString w2 (Ht' t Hraw)).
      cbn; now rewrite set_args_same.
    + destruct (String.eqb_spec X "help") as [-> | Hnh].
      { pose proof (ReadLongArg_help self i w Ht) as Hx.
        unfold help_shown in Hx; rewrite Hx in H; discriminate. }
      destruct (token (raw_args_ self) (i + 1)) as [v |] eqn:Hv.
      * rewrite (ReadLongArg_match self i X v w Ht Hne Hnh (or_introl Hv)) in H.
        injection H as <- <-; split; [reflexivity |].
        exists (map (long_edit X v)); split; [apply plan_like_long |].
        intros t w2 Hraw Hd.
        rewrite (Parse_token_long t i X w2 (Ht' t Hraw)).
        apply ReadLongArg_match; auto.
        left; now rewrite Hraw.
      * destruct (wants_long X (args_ self)) eqn:Hw.
        { rewrite (ReadLongArg_overrun self i X w Ht Hne Hnh Hv Hw) in H.
          discriminate. }
        rewrite (ReadLongArg_match self i X EmptyString w Ht Hne Hnh
                   (or_intror Hw)) in H.
        injection H as <- <-; split; [reflexivity |].
        exists (map (long_edit X EmptyString)); split; [apply plan_like_long |].
        intros t w2 Hraw Hd.
        rewrite (Parse_token_long t i X w2 (Ht' t Hraw)).
        apply ReadLongArg_match; auto.
        right; now rewrite (wants_long_decl X _ _ Hd).
  - (* short form *)
    destruct (short_token_inv tok Hl Hs) as (c & Hc & _).
    rewrite (Parse_token_short self i tok w Ht Hl Hs) in H.
    destruct (Ascii.eqb_spec c Str.nul) as [-> | Hn].
    + rewrite (ReadShortArg_token self i tok Str.nul w Ht Hc) in H.
      cbn in H; injection H as <- <-.
      split; [reflexivity |].
      exists (fun args => args); split; [apply plan_like_id |].
      intros t w2 Hraw Hd.
      rewrite (Parse_token_short t i tok w2 (Ht' t Hraw) Hl Hs),
        (ReadShortArg_token t i tok Str.nul w2 (Ht' t Hraw) Hc).
      cbn; now rewrite set_args_same.
    + destruct (Ascii.eqb_spec c "h") as [-> | Hh].
      { rewrite (ReadShortArg_token self i tok "h" w Ht Hc) in H.
        discriminate H. }
      rewrite (ReadShortArg_loop_run self i tok c w Ht Hc Hn Hh) in H.
      assert (Hrun : forall t w2 f,
                 raw_args_ t = raw_args_ self ->
                 ReadShortArg_loop (raw_args_ self) i c (args_ t) w2
                 = (Returns (f (args_ t)), w2) ->
                 Parse_token t i w2 = (Returns (set_args t (f (args_ t))), w2)).
      { intros t w2 f Hraw Hloop.
        rewrite (Parse_token_short t i tok w2 (Ht' t Hraw) Hl Hs),
          (ReadShortArg_loop_run t i tok c w2 (Ht' t Hraw) Hc Hn Hh), Hraw.
        now rewrite (bind_returns _ _ _ _ _ Hloop). }
      destruct (Z.of_nat (List.length (raw_args_ self))
                <=? to_size_t (i + 1)) eqn:Hchk.
      * rewrite (bind_returns _ _ _ _ _
                   (ReadShortArg_loop_abort _ i c (args_ self) w Hchk)) in H.
        injection H as <- <-; split; [reflexivity |].
        exists (short_abort c); split; [apply plan_like_abort |].
        intros t w2 Hraw Hd; apply Hrun; [exact Hraw |].
        now apply ReadShortArg_loop_abort.
      * destruct (token (raw_args_ self) (i + 1)) as [v |] eqn:Hv.
        -- rewrite (bind_returns _ _ _ _ _
                      (ReadShortArg_loop_value _ i c v (args_ self) w
                         Hchk Hv)) in H.
           injection H as <- <-; split; [reflexivity |].
           exists (map (short_edit c v)); split; [apply plan_like_short |].
           intros t w2 Hraw Hd; apply Hrun; [exact Hraw |].
           now apply ReadShortArg_loop_value.
        -- destruct (wants_short c (args_ self)) eqn:Hw.
           { unfold bind in H.
             rewrite (ReadShortArg_loop_overrun _ i c (args_ self) w
                        Hchk Hv Hw) in H.
             discriminate. }
           rewrite (bind_returns _ _ _ _ _
                      (ReadShortArg_loop_flags _ i c EmptyString
                         (args_ self) w Hw)) in H.
           injection H as <- <-; split; [reflexivity |].
           exists (map (short_edit c EmptyString));
             split; [apply plan_like_short |].
           intros t w2 Hraw Hd; apply Hrun; [exact Hraw |].
           apply ReadShortArg_loop_flags.
           now rewrite (wants_short_decl c _ _ Hd).
  - (* no dash *)
    unfold Parse_token in H.
    rewrite (bind_returns _ _ w w tok) in H by (apply index_token; exact Ht).
    rewrite Hl, Hs in H; injection H as <- <-.
    split; [reflexivity |].
    exists (fun args => args); split; [apply plan_like_id |].
    intros t w2 Hraw Hd; unfold Parse_token.
    rewrite (bind_returns _ _ w2 w2 tok)
      by (apply index_token; exact (Ht' t Hraw)).
    rewrite Hl, Hs; unfold ret; now rewrite set_args_same.
Qed.

Lemma Parse_scan_uniform n :
  forall i self w self' w',
    Parse_scan n i self w = (Returns self', w') ->
    w' = w
    /\ exists f,
        plan_like f
        /\ forall t w2,
            raw_args_ t = raw_args_ self ->
            map decl (args_ t) = map decl (args_ self) ->
            Parse_scan n i t w2 = (Returns (set_args t (f (args_ t))), w2).
Proof.
  induction n as [| n IH]; intros i self w self' w' H.
  - injection H as <- <-; split; [reflexivity |].
    exists (fun args => args); split; [apply plan_like_id |].
    intros t w2 _ _; cbn; unfold ret; now rewrite set_args_same.
  - cbn [Parse_scan] in H.
    apply bind_inv in H; destruct H as (s1 & w1 & Hstep & Hrest).
    destruct (Parse_token_uniform _ _ _ _ _ Hstep) as (-> & f1 & Hf1 & Hu1).
    destruct (IH _ _ _ _ _ Hrest) as (-> & f2 & Hf2 & Hu2).
    split; [reflexivity |].
    exists (fun args => f2 (f1 args)); split;
      [now apply plan_like_compose |].
    intros t w2 Hraw Hd.
    pose proof (Hu1 self w eq_refl eq_refl) as Hs1.
    rewrite Hstep in Hs1; injection Hs1 as ->.
    cbn [Parse_scan].
    rewrite (bind_returns _ _ _ _ _ (Hu1 t w2 Hraw Hd)).
    rewrite (Hu2 (set_args t (f1 (args_ t))) w2).
    + reflexivity.
    + cbn; exact Hraw.
    + cbn [args_ set_args].
      now rewrite !(plan_like_decl f1) by assumption.
Qed.

(** C10: when [Parse] returns, a second call on the object it returned
    returns as well, writes nothing, and leaves the object, and so every
    argument's value and given-flag, as the first call left it. *)
Theorem C10_Parse_twice :
  forall (self self' : Args.t) (w w' : io),
    Parse self w = (Returns self', w') ->
    Parse self' w' = (Returns self', w')
    /\ w' = w
    /\ map decl (args_ self') = map decl (args_ self).
Proof.
  intros self self' w w' H; unfold Parse in H.
  apply bind_inv in H; destruct H as (s1 & w1 & Hscan & Hcheck).
  apply bind_inv in Hcheck; destruct Hcheck as ([] & w2 & Hcheck & Hret).
  injection Hret as <- <-.
  destruct (Parse_scan_uniform _ _ _ _ _ _ Hscan) as (-> & f & Hf & Hu).
  assert (Hw : w2 = w).
  { rewrite Parse_check_first in Hcheck.
    destruct (find missing (args_ s1)); [| now injection Hcheck].
    exfalso; exact (Terminate_never_returns _ _ _ _ _ Hcheck). }
  subst w2.
  pose proof (Hu self w eq_refl eq_refl) as Hs1.
  rewrite Hscan in Hs1; injection Hs1 as Hs1.
  assert (Hd : map decl (args_ s1) = map decl (args_ self)).
  { rewrite Hs1; cbn [args_ set_args]; now apply plan_like_decl. }
  assert (Hraw : raw_args_ s1 = raw_args_ self) by now rewrite Hs1.
  assert (Hnum : num_args_ s1 = num_args_ self) by now rewrite Hs1.
  assert (Hagain : Parse_scan (Z.to_nat (num_args_ s1)) 0 s1 w
                   = (Returns s1, w)).
  { rewrite Hnum, (Hu s1 w Hraw Hd); do 2 f_equal.
    rewrite Hs1 at 2 3; cbn [args_ set_args].
    rewrite (plan_like_twice f _ Hf).
    rewrite Hs1; reflexivity. }
  split; [| split; [reflexivity | exact Hd]].
  unfold Parse.
  rewrite (bind_returns _ _ _ _ _ Hagain).
  now rewrite (bind_returns _ _ _ _ _ Hcheck).
Qed.

Lemma C10_Parse_twice_witness :
  let w := mkIO EmptyString EmptyString in
  Parse example_1_parsed w = (Returns example_1_parsed, w)
  /\ w = w
  /\ map decl (args_ example_1_parsed) = map decl (args_ example_1).
Proof.
  intros w.
  apply (C10_Parse_twice example_1 example_1_parsed w w).
  reflexivity.
Defined.

(* ------------------------------------------------------------------ *)
(** * Further properties of the code *)

(* ------------------------------------------------------------------ *)
(** ** The constructor and the registration *)


(** X1: the constructor drops [argv[0]], stores [argv[1]] to
    [argv[argc - 1]] in order and counts them; nothing is registered, the
    policy is [Exit] and the version ["0.0.1"]. With [argc = 0] the count
    is 0, not -1. *)
Theorem From_stores_the_tokens :
  forall (argc : Z) (argv : list string) (w : io),
    0 <= argc <= INT_MAX ->
    argc <= Z.of_nat (List.length argv) ->
    exists self,
      From argc argv w = (Returns self, w)
      /\ raw_args_ self = firstn (Z.to_nat (argc - 1)) (tl argv)
      /\ num_args_ self = Z.of_nat (List.length (raw_args_ self))
      /\ (argc = 0 -> num_args_ self = 0)
      /\ args_ self = []
      /\ terminateBy_ self = Exit
      /\ version_ self = "0.0.1"%string
      /\ well_formed self.
Proof.
  intros argc argv w Hargc Hlen; unfold From.
  assert (Hpush : push_raw argv (Z.to_nat (argc - 1)) 1 [] w
                  = (Returns (firstn (Z.to_nat (argc - 1)) (tl argv)), w)).
  { destruct (Z.to_nat (argc - 1)) as [| n] eqn:Hn; [reflexivity |].
    change (push_raw argv (S n) 1 [] w)
      with (push_raw argv (S n) (Z.of_nat 1) [] w).
    rewrite (push_raw_copies argv (S n) 1%nat [] w) by lia.
    destruct argv; reflexivity. }
  rewrite (bind_returns _ _ _ _ _ Hpush).
  assert (Hcount : Z.of_nat (List.length (firstn (Z.to_nat (argc - 1))
                                            (tl argv)))
                   = if argc =? 0 then argc else argc - 1).
  { rewrite length_firstn.
    assert (List.length (tl argv) = (List.length argv - 1)%nat)
      by (destruct argv; cbn; lia).
    destruct (Z.eqb_spec argc 0); lia. }
  eexists; split; [reflexivity |].
  cbn [raw_args_ num_args_ args_ terminateBy_ version_].
  repeat split; try (now rewrite Hcount).
  - intros ->; reflexivity.
  - unfold well_formed; cbn [raw_args_ num_args_].
    rewrite Hcount; unfold INT_MAX in *.
    destruct (Z.eqb_spec argc 0); lia.
  - cbn [num_args_]. unfold INT_MAX in *. destruct (Z.eqb_spec argc 0); lia.
Qed.

Lemma From_stores_the_tokens_witness :
  exists self,
    From 3 ["prog"; "-n"; "Bob"]%string no_output = (Returns self, no_output)
    /\ raw_args_ self = firstn (Z.to_nat (3 - 1)) (tl ["prog"; "-n"; "Bob"]%string)
    /\ num_args_ self = Z.of_nat (List.length (raw_args_ self))
    /\ (3 = 0 -> num_args_ self = 0)
    /\ args_ self = []
    /\ terminateBy_ self = Exit
    /\ version_ self = "0.0.1"%string
    /\ well_formed self.
Proof.
  apply (From_stores_the_tokens 3 ["prog"; "-n"; "Bob"]%string no_output).
  - unfold INT_MAX; lia.
  - cbn; lia.
Defined.



(* ------------------------------------------------------------------ *)
(** ** Looking arguments up *)

Lemma Get_loop_find args arg_name :
  Get_loop args arg_name
  = match find (named arg_name) args with
    | Some a => GetValue a
    | None => None
    end.
Proof.
  induction args as [| a rest IH]; [reflexivity |].
  cbn [Get_loop find]; unfold named at 1.
  destruct (String.eqb (GetName a) arg_name); [reflexivity | exact IH].
Qed.

Lemma GetValue_some a v :
  GetValue a = Some v <-> value_ a = v /\ v <> EmptyString.
Proof.
  unfold GetValue, Str.size; destruct (value_ a) as [| c s] eqn:E; cbn.
  - split; [discriminate | intros [<- H]; now elim H].
  - split; [intros [= <-]; split; [reflexivity | discriminate] |].
    now intros [<- _].
Qed.

Lemma GetValue_none a : GetValue a = None <-> value_ a = EmptyString.
Proof.
  unfold GetValue, Str.size; destruct (value_ a); cbn; split;
    intros; try reflexivity; discriminate.
Qed.

(** X3: [Get] answers for the first registered argument with the name:
    its value when that is not empty; nothing when the value is empty and
    nothing when no argument has the name, two cases the caller cannot
    tell apart. *)
Theorem Get_first_argument_by_name :
  forall (self : Args.t) (arg_name : string),
    (forall v,
        Get self arg_name = Some v <->
        exists a, find (named arg_name) (args_ self) = Some a
                  /\ value_ a = v /\ v <> EmptyString)
    /\ (Get self arg_name = None <->
        find (named arg_name) (args_ self) = None
        \/ exists a, find (named arg_name) (args_ self) = Some a
                     /\ value_ a = EmptyString).
Proof.
  intros self arg_name; unfold Get; rewrite Get_loop_find.
  destruct (find (named arg_name) (args_ self)) as [a |]; split.
  - intros v; rewrite GetValue_some; split.
    + intros H; exists a; now split.
    + now intros (b & [= <-] & H).
  - rewrite GetValue_none; split.
    + intros H; right; exists a; now split.
    + intros [H | (b & [= <-] & H)]; [discriminate | exact H].
  - intros v; split; [discriminate | now intros (b & H & _)].
  - split; [now left | reflexivity].
Qed.

Lemma find_app_some {A} (f : A -> bool) l l' x :
  find f l = Some x -> find f (l ++ l') = Some x.
Proof.
  induction l as [| y l IH]; [discriminate |].
  cbn; destruct (f y); auto.
Qed.

Lemma find_app_none {A} (f : A -> bool) l l' :
  find f l = None -> find f (l ++ l') = find f l'.
Proof.
  induction l as [| y l IH]; [reflexivity |].
  cbn; destruct (f y); [discriminate | auto].
Qed.

(** X4: registration never changes the answer for a name that is
    already registered: [Arg] appends, and [Get] and [IsGiven] stop at
    the first argument with the name, so a second argument with the same
    name is never seen. For a name not yet registered the new argument
    answers. *)
Theorem Arg_keeps_earlier_names :
  forall (item : Argument.t) (self : Args.t) (arg_name : string),
    args_ (Arg item self) = args_ self ++ [item]
    /\ (find (named arg_name) (args_ self) <> None ->
        Get (Arg item self) arg_name = Get self arg_name
        /\ Args.IsGiven (Arg item self) arg_name
           = Args.IsGiven self arg_name)
    /\ (find (named arg_name) (args_ self) = None ->
        Get (Arg item self) arg_name
        = (if named arg_name item then GetValue item else None)
        /\ Args.IsGiven (Arg item self) arg_name
           = (if named arg_name item
              then Argument.IsOption item && Argument.IsGiven item
              else false)).
Proof.
  intros item self arg_name; split; [reflexivity |].
  unfold Get, Args.IsGiven; rewrite !Get_loop_find, !IsGiven_loop_find.
  cbn [Arg set_args args_]; split.
  - destruct (find (named arg_name) (args_ self)) as [a |] eqn:E;
      [intros _ | now intros H].
    now rewrite (find_app_some _ _ [item] _ E).
  - intros E; rewrite (find_app_none _ _ [item] E); cbn [find].
    now destruct (named arg_name item).
Qed.

(* ------------------------------------------------------------------ *)
(** ** Tokens that name nothing *)

Lemma short_abort_unnamed c args :
  Forall (fun a => Ascii.eqb (GetShort a) c = false) args ->
  short_abort c args = args.
Proof.
  intros H; induction H as [| a rest Ha _ IH]; [reflexivity |].
  cbn [short_abort]; now rewrite Ha, IH.
Qed.

Lemma map_unnamed (f : Argument.t -> Argument.t) args :
  Forall (fun a => f a = a) args -> map f args = args.
Proof.
  intros H; induction H as [| a rest Ha _ IH]; [reflexivity |].
  cbn [map]; now rewrite Ha, IH.
Qed.

Lemma wants_long_unnamed X args :
  Forall (fun a => String.eqb (GetLong a) X = false) args ->
  wants_long X args = false.
Proof.
  intros H; induction H as [| a rest Ha _ IH]; [reflexivity |].
  cbn [wants_long existsb]; rewrite Ha; exact IH.
Qed.

Lemma token_edit_unnamed tok next args :
  Forall (fun a => names tok a = false) args ->
  token_edit tok next args = args /\ overruns tok next args = false.
Proof.
  unfold names, token_edit, overruns; intros H.
  destruct (Str.starts_with "--" tok).
  - destruct (Str.substr 2 tok) as [X |].
    2: { split; [reflexivity | now destruct next]. }
    destruct (Nat.eqb (Str.size X) 0).
    { split; [reflexivity | now destruct next]. }
    cbn [negb andb] in *; split.
    + apply map_unnamed; eapply Forall_impl; [| exact H].
      intros a Ha; unfold long_edit; now rewrite Ha.
    + destruct next; [reflexivity |].
      now apply wants_long_unnamed.
  - split; [| now destruct next].
    destruct (Str.starts_with "-" tok); [| reflexivity].
    destruct (Str.at_ tok 1) as [c |]; [| reflexivity].
    destruct (Ascii.eqb c Str.nul); [reflexivity |].
    cbn [negb andb] in H; destruct next as [v |].
    + apply map_unnamed; eapply Forall_impl; [| exact H].
      intros a Ha; unfold short_edit; now rewrite Ha.
    + now apply short_abort_unnamed.
Qed.

Lemma scan_tokens_unnamed toks args :
  Forall (fun tok => triggers_help tok = false
                     /\ Forall (fun a => names tok a = false) args) toks ->
  scan_tokens toks args = Returns args.
Proof.
  intros H; induction H as [| tok rest [Hh Hn] _ IH]; [reflexivity |].
  cbn [scan_tokens]; rewrite Hh.
  destruct (token_edit_unnamed tok (hd_error rest) args Hn) as [-> ->].
  exact IH.
Qed.

(** X5: tokens that name no registered argument, and tokens without a
    leading dash, are passed over without a diagnostic: when no token
    names an argument or shows the help, the scan leaves the object as it
    was, also when the last token is a long form, and [Parse] is the
    check of the required arguments alone. *)
Theorem unknown_tokens_are_ignored :
  forall (self : Args.t) (w : io),
    well_formed self ->
    Forall (fun tok =>
              triggers_help tok = false
              /\ Forall (fun a => names tok a = false) (args_ self))
           (raw_args_ self) ->
    Parse_scan (Z.to_nat (num_args_ self)) 0 self w = (Returns self, w)
    /\ Parse self w
       = match find missing (args_ self) with
         | Some a => (Terminate self a ;;; ret self) w
         | None => (Returns self, w)
         end.
Proof.
  intros self w Hwf Hall.
  rewrite (Parse_scan_all self w Hwf), (Parse_well_formed self w Hwf).
  rewrite (scan_tokens_unnamed _ _ Hall); cbn [scan_result].
  now rewrite set_args_same.
Qed.

Lemma unknown_tokens_are_ignored_witness :
  Parse_scan (Z.to_nat (num_args_ example_4)) 0 example_4 no_output
  = (Returns example_4, no_output)
  /\ Parse example_4 no_output
     = match find missing (args_ example_4) with
       | Some a => (Terminate example_4 a ;;; ret example_4) no_output
       | None => (Returns example_4, no_output)
       end.
Proof.
  apply (unknown_tokens_are_ignored example_4 no_output).
  - split; [reflexivity | unfold INT_MAX; cbn; lia].
  - repeat constructor.
Defined.

Lemma scan_tokens_returns_no_help toks :
  forall args l,
    scan_tokens toks args = Returns l ->
    Forall (fun t => triggers_help t = false) toks.
Proof.
  induction toks as [| tok rest IH]; intros args l H; [constructor |].
  cbn [scan_tokens] in H.
  destruct (triggers_help tok) eqn:Hh; [discriminate |].
  destruct (overruns tok (hd_error rest) args); [discriminate |].
  constructor; [exact Hh | exact (IH _ _ H)].
Qed.


Lemma no_usable_form_unnamed tok a :
  no_usable_form a -> triggers_help tok = false -> names tok a = false.
Proof.
  unfold no_usable_form, names, triggers_help, GetLong, GetShort.
  intros [Hl Hs] Hh.
  destruct (Str.starts_with "--" tok) eqn:Hp.
  - destruct (starts_with_inv _ _ Hp) as [X ->].
    change (Str.substr 2 ("--" +++ X)) with (Some X); cbv beta iota.
    rewrite long_help_eqb in Hh.
    destruct (Nat.eqb (Str.size X) 0) eqn:Hz; [reflexivity |].
    cbn [negb andb].
    destruct Hl as [-> | ->].
    + destruct X; [discriminate Hz | reflexivity].
    + now rewrite String.eqb_sym.
  - destruct (Str.starts_with "-" tok); [| reflexivity].
    destruct (Str.at_ tok 1) as [c |]; [| reflexivity].
    destruct (Ascii.eqb_spec c Str.nul) as [-> | Hn]; [reflexivity |].
    cbn [negb andb].
    destruct Hs as [-> | ->].
    + apply Ascii.eqb_neq; congruence.
    + now rewrite Ascii.eqb_sym.
Qed.

(** X6: an argument registered without a usable form (no long form or
    the reserved [help]; no short form or the reserved [h]) is never
    changed by a [Parse] that returns: the bare tokens [--] and [-] match
    nothing, and [--help] and [-h] end the run first. *)
Theorem formless_argument_is_never_set :
  forall (self self' : Args.t) (w w' : io) (pre post : list Argument.t)
         (a : Argument.t),
    well_formed self ->
    Parse self w = (Returns self', w') ->
    args_ self = pre ++ a :: post ->
    no_usable_form a ->
    nth_error (args_ self') (List.length pre) = Some a.
Proof.
  intros self self' w w' pre post a Hwf HP Hargs Hform.
  rewrite (Parse_well_formed self w Hwf) in HP.
  destruct (scan_tokens (raw_args_ self) (args_ self)) as [l | | |] eqn:El;
    try discriminate HP.
  assert (Hself : self' = set_args self l).
  { destruct (find missing l) as [b |]; [| now injection HP].
    exfalso; revert HP; unfold bind, Terminate.
    destruct (terminateBy_ _); discriminate. }
  subst self'; cbn [args_ set_args].
  assert (Hn : Forall (fun tok => names tok a = false) (raw_args_ self)).
  { eapply Forall_impl; [| exact (scan_tokens_returns_no_help _ _ _ El)].
    intros tok; now apply no_usable_form_unnamed. }
  destruct (scan_tokens_untouched _ _ _ _ _ _ El Hargs Hn)
    as (pre' & post' & -> & Hd).
  assert (Hlen : List.length pre' = List.length pre).
  { apply (f_equal (@List.length _)) in Hd; now rewrite !length_map in Hd. }
  rewrite <- Hlen, nth_error_app2, Nat.sub_diag by lia; reflexivity.
Qed.

Lemma formless_argument_is_never_set_witness :
  nth_error (args_ formless) (List.length (@nil Argument.t))
  = Some (WithName "plain").
Proof.
  apply (formless_argument_is_never_set formless formless no_output no_output
           [] [] (WithName "plain")).
  - split; [reflexivity | unfold INT_MAX; cbn; lia].
  - reflexivity.
  - reflexivity.
  - split; left; reflexivity.
Defined.

(* ------------------------------------------------------------------ *)
(** ** What a [Parse] that returns has done *)

Lemma Parse_returns_plan self w self' w' :
  Parse self w = (Returns self', w') ->
  w' = w
  /\ (exists p, self' = set_args self (apply_plan p (args_ self)))
  /\ find missing (args_ self') = None.
Proof.
  intros H; unfold Parse in H.
  apply bind_inv in H; destruct H as (s1 & w1 & Hscan & Hcheck).
  apply bind_inv in Hcheck; destruct Hcheck as ([] & w2 & Hcheck & Hret).
  injection Hret as <- <-.
  destruct (Parse_scan_uniform _ _ _ _ _ _ Hscan) as (-> & f & [pf Hf] & Hu).
  rewrite Parse_check_first in Hcheck.
  destruct (find missing (args_ s1)) eqn:Hm.
  { exfalso; exact (Terminate_never_returns _ _ _ _ _ Hcheck). }
  injection Hcheck as <-.
  pose proof (Hu self w eq_refl eq_refl) as Hs1.
  rewrite Hscan in Hs1; injection Hs1 as ->.
  split; [reflexivity | split; [| reflexivity]].
  exists (pf (map decl (args_ self))); now rewrite <- Hf.
Qed.

Lemma only_set_same a : only_set a a.
Proof. unfold only_set; auto. Qed.

Lemma only_set_take v a : only_set a (take v a).
Proof.
  unfold only_set; split; [apply decl_take |].
  unfold take, mark_given, Argument.IsOption, IsExpectingValue.
  destruct a as [n l s x r [] [] g]; cbn; repeat split; auto; discriminate.
Qed.

Lemma apply_plan_only_set p :
  forall args, Forall2 only_set args (apply_plan p args).
Proof.
  assert (Hsame : forall args, Forall2 only_set args args).
  { induction args; constructor; auto using only_set_same. }
  induction p as [| o p IH]; intros [| a rest]; cbn [apply_plan];
    try apply Hsame.
  constructor; [| apply IH].
  destruct o; [apply only_set_take | apply only_set_same].
Qed.

Lemma Forall2_in_left {A B} (R : A -> B -> Prop) l l' a :
  Forall2 R l l' -> In a l -> exists b, In b l' /\ R a b.
Proof.
  intros H; induction H as [| x y l l' Hxy _ IH]; [intros [] |].
  intros [<- | Hin]; [exists y; split; [now left | exact Hxy] |].
  destruct (IH Hin) as (b & Hb & Hab); exists b; split; [now right | exact Hab].
Qed.

Lemma only_set_find n l l' :
  Forall2 only_set l l' ->
  match find (named n) l, find (named n) l' with
  | Some a, Some a' => only_set a a'
  | None, None => True
  | _, _ => False
  end.
Proof.
  intros H; induction H as [| a a' l l' Haa _ IH]; [exact I |].
  cbn [find].
  destruct Haa as (Hd & Hrest).
  assert (Hname : named n a' = named n a).
  { unfold named, GetName, decl in *; injection Hd as -> _; reflexivity. }
  rewrite Hname.
  destruct (named n a); [| exact IH].
  split; [exact Hd | exact Hrest].
Qed.

(** X7: a [Parse] that returns has changed nothing but values and
    given-flags, and those only one way: the tokens, the count, the policy
    and every declaration are as before; no given-flag is cleared; an
    argument that expects no value keeps its value; an argument that is
    no option keeps its given-flag. *)
Theorem Parse_only_sets :
  forall (self self' : Args.t) (w w' : io),
    Parse self w = (Returns self', w') ->
    raw_args_ self' = raw_args_ self
    /\ num_args_ self' = num_args_ self
    /\ terminateBy_ self' = terminateBy_ self
    /\ (about_ self', author_ self', Args.name_ self', version_ self')
       = (about_ self, author_ self, Args.name_ self, version_ self)
    /\ Forall2 only_set (args_ self) (args_ self').
Proof.
  intros self self' w w' H.
  destruct (Parse_returns_plan _ _ _ _ H) as (_ & [p ->] & _).
  cbn [set_args raw_args_ num_args_ terminateBy_ about_ author_ Args.name_
         version_ args_].
  repeat split; apply apply_plan_only_set.
Qed.

Lemma Parse_only_sets_witness :
  raw_args_ example_1_parsed = raw_args_ example_1
  /\ num_args_ example_1_parsed = num_args_ example_1
  /\ terminateBy_ example_1_parsed = terminateBy_ example_1
  /\ (about_ example_1_parsed, author_ example_1_parsed,
      Args.name_ example_1_parsed, version_ example_1_parsed)
     = (about_ example_1, author_ example_1, Args.name_ example_1,
        version_ example_1)
  /\ Forall2 only_set (args_ example_1) (args_ example_1_parsed).
Proof.
  apply (Parse_only_sets example_1 example_1_parsed no_output no_output).
  reflexivity.
Defined.

(** X8: what the caller asked before [Parse] and asks again after a
    [Parse] that returned: an option that was given is still given, and
    [Get] answers the same for a name whose first argument expects no
    value. *)
Theorem Parse_keeps_answers :
  forall (self self' : Args.t) (w w' : io) (arg_name : string),
    Parse self w = (Returns self', w') ->
    (Args.IsGiven self arg_name = true ->
     Args.IsGiven self' arg_name = true)
    /\ (forall a,
           find (named arg_name) (args_ self) = Some a ->
           IsExpectingValue a = false ->
           Get self' arg_name = Get self arg_name)
    /\ (find (named arg_name) (args_ self) = None ->
        Get self' arg_name = None
        /\ Args.IsGiven self' arg_name = false).
Proof.
  intros self self' w w' n H.
  destruct (Parse_returns_plan _ _ _ _ H) as (_ & [p ->] & _).
  pose proof (only_set_find n _ _ (apply_plan_only_set p (args_ self))) as Hf.
  unfold Args.IsGiven, Get; rewrite !IsGiven_loop_find, !Get_loop_find.
  cbn [set_args args_].
  destruct (find (named n) (args_ self)) as [a |];
    destruct (find (named n) (apply_plan p (args_ self))) as [a' |];
    try contradiction.
  - destruct Hf as (Hd & Hg & Hv & _).
    assert (Ho : Argument.IsOption a' = Argument.IsOption a).
    { unfold decl in Hd; unfold Argument.IsOption; now injection Hd. }
    split; [| split].
    + rewrite Ho; intros Hgiven.
      apply andb_true_iff in Hgiven; destruct Hgiven as [-> Hga].
      unfold Argument.IsGiven in *; now rewrite (Hg Hga).
    + intros b [= <-] He; unfold GetValue; now rewrite (Hv He).
    + discriminate.
  - split; [discriminate | split; [discriminate | now split]].
Qed.

Lemma Parse_keeps_answers_witness :
  (Args.IsGiven example_1 "verbose" = true ->
   Args.IsGiven example_1_parsed "verbose" = true)
  /\ (forall a,
         find (named "verbose") (args_ example_1) = Some a ->
         IsExpectingValue a = false ->
         Get example_1_parsed "verbose" = Get example_1 "verbose")
  /\ (find (named "verbose") (args_ example_1) = None ->
      Get example_1_parsed "verbose" = None
      /\ Args.IsGiven example_1_parsed "verbose" = false).
Proof.
  apply (Parse_keeps_answers example_1 example_1_parsed no_output no_output).
  reflexivity.
Defined.



(** X10: a required argument that expects no value and was registered
    without one can never be satisfied from the command line: parsing
    sets the value of value-expecting arguments only, so [Parse] never
    returns, whatever the tokens. *)
Theorem required_flag_never_parses :
  forall (self : Args.t) (a : Argument.t),
    In a (args_ self) ->
    IsRequired a = true -> IsExpectingValue a = false ->
    value_ a = EmptyString ->
    forall w self' w', Parse self w <> (Returns self', w').
Proof.
  intros self a Hin Hreq Hexp Hval w self' w' H.
  destruct (Parse_returns_plan _ _ _ _ H) as (_ & [p ->] & Hm).
  cbn [set_args args_] in Hm.
  destruct (Forall2_in_left _ _ _ a (apply_plan_only_set p (args_ self)) Hin)
    as (a' & Hin' & Hd & _ & Hv & _).
  pose proof (find_none _ _ Hm a' Hin') as Ha.
  assert (Hr : required_ a' = required_ a).
  { unfold decl in Hd; now injection Hd. }
  unfold missing, IsRequired, GetValue in Ha.
  unfold IsRequired in Hreq.
  rewrite Hr, Hreq, (Hv Hexp), Hval in Ha; discriminate Ha.
Qed.

Lemma required_flag_never_parses_witness :
  Parse example_3 no_output <> (Returns example_3, no_output).
Proof.
  apply (required_flag_never_parses example_3
           (Required (SetLong "out" (WithName "out")))).
  - left; reflexivity.
  - reflexivity.
  - reflexivity.
  - reflexivity.
Defined.

(* ------------------------------------------------------------------ *)
(** ** Short forms *)

Lemma short_token_shape c rest :
  c <> "-"%char ->
  Str.starts_with "--" (String "-" (String c rest)) = false
  /\ Str.starts_with "-" (String "-" (String c rest)) = true
  /\ Str.at_ (String "-" (String c rest)) 1 = Some c.
Proof.
  intros Hc; split; [| split; [| reflexivity]];
    unfold Str.starts_with; cbn [String.prefix];
    destruct (ascii_dec "-" "-") as [_ | n]; try now elim n.
  - destruct (ascii_dec "-" c) as [E | _]; [now elim Hc | reflexivity].
  - reflexivity.
Qed.

(** X11: a token with one dash is read by its second character alone,
    whatever follows it in the token: when a token [v] comes next, every
    registered argument whose short form is that character is updated
    (it takes [v] when it expects a value, its given-flag is set when it
    is an option) and the other arguments are left as they are. *)
Theorem short_token_updates_every_match :
  forall (self : Args.t) (i : Z) (c : ascii) (rest v : string) (w : io),
    0 <= i < INT_MAX ->
    token (raw_args_ self) i = Some (String "-" (String c rest)) ->
    c <> "-"%char -> c <> Str.nul -> c <> "h"%char ->
    token (raw_args_ self) (i + 1) = Some v ->
    Parse_token self i w
    = (Returns (set_args self (map (short_edit c v) (args_ self))), w)
    /\ forall b,
        (GetShort b = c ->
         short_edit c v b = take v b
         /\ (IsExpectingValue b = true -> value_ (short_edit c v b) = v)
         /\ (Argument.IsOption b = true ->
             is_given_ (short_edit c v b) = true))
        /\ (GetShort b <> c -> short_edit c v b = b).
Proof.
  intros self i c rest v w Hi Ht Hd Hn Hh Hv.
  destruct (short_token_shape c rest Hd) as (Hl & Hs & Hc).
  split.
  - rewrite (Parse_token_short self i _ w Ht Hl Hs).
    now apply (ReadShortArg_match self i (String "-" (String c rest))).
  - intros b; split.
    + intros Hb; unfold short_edit.
      apply Ascii.eqb_eq in Hb; rewrite Hb.
      split; [reflexivity | split; [apply take_value | apply take_given]].
    + intros Hb; unfold short_edit.
      apply Ascii.eqb_neq in Hb; now rewrite Hb.
Qed.

Lemma short_token_updates_every_match_witness :
  Parse_token example_2 0 no_output
  = (Returns (set_args example_2
                (map (short_edit "n" "Bob") (args_ example_2))), no_output)
  /\ forall b,
      (GetShort b = "n"%char ->
       short_edit "n" "Bob" b = take "Bob" b
       /\ (IsExpectingValue b = true ->
           value_ (short_edit "n" "Bob" b) = "Bob"%string)
       /\ (Argument.IsOption b = true ->
           is_given_ (short_edit "n" "Bob" b) = true))
      /\ (GetShort b <> "n"%char -> short_edit "n" "Bob" b = b).
Proof.
  apply (short_token_updates_every_match example_2 0 "n" EmptyString "Bob").
  - unfold INT_MAX; lia.
  - reflexivity.
  - discriminate.
  - discriminate.
  - discriminate.
  - reflexivity.
Defined.

(* ------------------------------------------------------------------ *)
(** ** How [Parse] ends *)



Lemma triggers_help_token tok :
  triggers_help tok = true <-> help_token tok.
Proof.
  unfold triggers_help, help_token; split.
  - destruct (Str.starts_with "--" tok) eqn:Hl.
    + intros H; apply String.eqb_eq in H; now left.
    + destruct (Str.starts_with "-" tok) eqn:Hs; [| discriminate].
      destruct (starts_with_inv _ _ Hs) as [r ->].
      destruct r as [| c r]; [discriminate |].
      cbn; intros H; apply Ascii.eqb_eq in H; subst c.
      right; exists r; reflexivity.
  - intros [-> | [rest ->]]; reflexivity.
Qed.

(** X13: [Parse] exits with status 0 exactly when some token shows the
    help, that is when a token is [--help] or starts with [-h]: the help
    is shown for [-hello] as for [-h], and not for [--helpful]. *)
Theorem exit_0_iff_help_token :
  forall (self : Args.t) (w : io),
    well_formed self ->
    (fst (Parse self w) = Exits 0 <-> Exists help_token (raw_args_ self))
    /\ help_token "-hello" /\ ~ help_token "--helpful".
Proof.
  intros self w Hwf; split; [| split].
  - rewrite (Parse_well_formed self w Hwf); split.
    + intros H.
      destruct (scan_tokens (raw_args_ self) (args_ self)) as [l | s | e |]
        eqn:El.
      * exfalso; destruct (find missing l); [| discriminate H].
        revert H; unfold bind, Terminate.
        destruct (terminateBy_ _); discriminate.
      * clear H; revert El; generalize (args_ self).
        induction (raw_args_ self) as [| tok rest IH]; intros args El;
          [discriminate |].
        cbn [scan_tokens] in El.
        destruct (triggers_help tok) eqn:Hh.
        { apply Exists_cons_hd; now apply triggers_help_token. }
        destruct (overruns tok (hd_error rest) args); [discriminate |].
        apply Exists_cons_tl; exact (IH _ El).
      * discriminate H.
      * discriminate H.
    + intros H; rewrite scan_tokens_help; [reflexivity |].
      eapply Exists_impl; [| exact H].
      intros tok; apply triggers_help_token.
  - right; exists "ello"%string; reflexivity.
  - intros [H | [rest H]]; discriminate.
Qed.

Lemma exit_0_iff_help_token_witness :
  (fst (Parse help_with_missing no_output) = Exits 0 <->
   Exists help_token (raw_args_ help_with_missing))
  /\ help_token "-hello" /\ ~ help_token "--helpful".
Proof.
  apply (exit_0_iff_help_token help_with_missing no_output).
  split; [reflexivity | unfold INT_MAX; cbn; lia].
Defined.

(* ------------------------------------------------------------------ *)
(** ** The settings of [Args] *)

Lemma on_return_bind {A B C} (g : B -> C) (m : M A)
      (k : A -> M B) (k' : A -> M C) (w : io) :
  (forall a w1, k' a w1 = on_return g (k a w1)) ->
  bind m k' w = on_return g (bind m k w).
Proof.
  intros H; unfold bind; destruct (m w) as [[a | | |] w1];
    cbn [on_return]; auto.
Qed.

Section Setting.

(** A change [g] of the object that leaves the tokens, the count and the
    registered arguments alone. *)
Variable g : Args.t -> Args.t.
Hypothesis g_raw : forall s, raw_args_ (g s) = raw_args_ s.
Hypothesis g_args : forall s, args_ (g s) = args_ s.
Hypothesis g_num : forall s, num_args_ (g s) = num_args_ s.
Hypothesis g_set : forall s l, set_args (g s) l = g (set_args s l).

Lemma ReadLongArg_setting s i w :
  ReadLongArg (g s) i w = on_return g (ReadLongArg s i w).
Proof.
  unfold ReadLongArg; rewrite g_raw, g_args.
  apply on_return_bind; intros tok w1.
  destruct (Str.substr 2 tok) as [name |]; [| reflexivity].
  destruct (Nat.eqb (Str.size name) 0); [reflexivity |].
  apply on_return_bind; intros _ w2.
  apply on_return_bind; intros l w3.
  unfold ret; cbn [on_return]; now rewrite g_set.
Qed.

Lemma ReadShortArg_setting s i w :
  ReadShortArg (g s) i w = on_return g (ReadShortArg s i w).
Proof.
  unfold ReadShortArg; rewrite g_raw, g_args.
  apply on_return_bind; intros tok w1.
  destruct (Str.at_ tok 1) as [c |]; [| reflexivity].
  destruct (Ascii.eqb c Str.nul); [reflexivity |].
  apply on_return_bind; intros _ w2.
  apply on_return_bind; intros l w3.
  unfold ret; cbn [on_return]; now rewrite g_set.
Qed.

Lemma Parse_token_setting s i w :
  Parse_token (g s) i w = on_return g (Parse_token s i w).
Proof.
  unfold Parse_token; rewrite g_raw.
  apply on_return_bind; intros tok w1.
  destruct (Str.starts_with "--" tok); [apply ReadLongArg_setting |].
  destruct (Str.starts_with "-" tok); [apply ReadShortArg_setting |].
  reflexivity.
Qed.

Lemma Parse_scan_setting n :
  forall i s w,
    Parse_scan n i (g s) w = on_return g (Parse_scan n i s w).
Proof.
  induction n as [| n IH]; intros i s w; [reflexivity |].
  cbn [Parse_scan]; unfold bind; rewrite Parse_token_setting.
  destruct (Parse_token s i w) as [[s1 | | |] w1]; cbn [on_return];
    try reflexivity.
  apply IH.
Qed.

(** When [g] keeps the policy too, or when no required argument is
    missing after the scan, [Parse] does on [g s] what it does on [s]. *)
Lemma Parse_setting s w :
  (forall t, terminateBy_ (g t) = terminateBy_ t)
  \/ (forall s1 w1,
         Parse_scan (Z.to_nat (num_args_ s)) 0 s w = (Returns s1, w1) ->
         find missing (args_ s1) = None) ->
  Parse (g s) w = on_return g (Parse s w).
Proof.
  intros Hcase; unfold Parse, bind.
  rewrite g_num, Parse_scan_setting.
  destruct (Parse_scan (Z.to_nat (num_args_ s)) 0 s w) as [[s1 | | |] w1]
    eqn:Hscan; cbn [on_return]; try reflexivity.
  rewrite !Parse_check_first, g_args.
  destruct Hcase as [Hpol | Hnone].
  - destruct (find missing (args_ s1)); [| reflexivity].
    unfold Terminate; rewrite Hpol.
    now destruct (terminateBy_ s1).
  - now rewrite (Hnone s1 w1 eq_refl).
Qed.

End Setting.

(** X14: the descriptive settings play no part in parsing: [Parse] on an
    object whose about text, author, name or version has been set ends as
    it does without the setting, writes the same, and returns the same
    object with the setting applied. *)
Theorem metadata_never_matters :
  forall (self : Args.t) (text : string) (w : io),
    Parse (SetAbout text self) w = on_return (SetAbout text) (Parse self w)
    /\ Parse (SetAuthor text self) w
       = on_return (SetAuthor text) (Parse self w)
    /\ Parse (SetName text self) w = on_return (SetName text) (Parse self w)
    /\ Parse (SetVersion text self) w
       = on_return (SetVersion text) (Parse self w).
Proof.
  intros self text w; repeat split;
    apply Parse_setting; try reflexivity; left; reflexivity.
Qed.

(** X15: the termination policy matters only when a required argument
    is missing: when [Parse] does not end in exit status 1 or in an
    exception, it ends the same way under either policy, with the same
    output and the same arguments. *)
Theorem policy_matters_only_on_failure :
  forall (self : Args.t) (type : TerminationType) (w : io),
    fst (Parse self w) <> Exits EXIT_FAILURE ->
    (forall e, fst (Parse self w) <> Throws e) ->
    Parse (SetTerminationType type self) w
    = on_return (SetTerminationType type) (Parse self w).
Proof.
  intros self type w Hexit Hthrow.
  apply Parse_setting; try reflexivity.
  right; intros s1 w1 Hscan.
  destruct (find missing (args_ s1)) as [a |] eqn:Hm; [| reflexivity].
  exfalso.
  assert (E : Parse self w = (Terminate s1 a ;;; ret s1) w1).
  { unfold Parse; rewrite (bind_returns _ _ _ _ _ Hscan).
    unfold bind at 1; rewrite Parse_check_first, Hm.
    unfold Terminate, bind; now destruct (terminateBy_ s1). }
  rewrite E in Hexit, Hthrow; revert Hexit Hthrow.
  unfold Terminate, bind; destruct (terminateBy_ s1).
  - intros H _; apply H; reflexivity.
  - intros _ H; apply (H (CString "Exception")); reflexivity.
Qed.

Lemma policy_matters_only_on_failure_witness :
  Parse (SetTerminationType Exception example_1) no_output
  = on_return (SetTerminationType Exception) (Parse example_1 no_output).
Proof.
  apply (policy_matters_only_on_failure example_1 Exception no_output).
  - discriminate.
  - discriminate.
Defined.

(* ------------------------------------------------------------------ *)
(** ** The builder of [Argument] *)

Lemma apply_keeps_name o a :
  Argument.name_ (Argument.apply o a) = Argument.name_ a
  /\ (required_ a = true -> required_ (Argument.apply o a) = true).
Proof. destruct o; cbn; auto. Qed.

(** X16: the name given to [WithName] is the name for good, and
    [Required] cannot be taken back: after any sequence of public calls
    the argument has the name it was made with, and an argument that was
    required is still required; a [Parse] that returns changes neither. *)
Theorem name_and_required_are_permanent :
  forall (a : Argument.t) (ops : list Argument.op),
    GetName (Argument.run ops a) = GetName a
    /\ (IsRequired a = true -> IsRequired (Argument.run ops a) = true)
    /\ GetName (Argument.run ops (WithName (GetName a))) = GetName a
    /\ IsRequired (Argument.run ops (Required a)) = true.
Proof.
  assert (H : forall ops a,
             Argument.name_ (Argument.run ops a) = Argument.name_ a
             /\ (required_ a = true ->
                 required_ (Argument.run ops a) = true)).
  { unfold Argument.run; induction ops as [| o ops IH]; intros a;
      [now split |].
    cbn [fold_left]; destruct (IH (Argument.apply o a)) as [Hn Hr].
    destruct (apply_keeps_name o a) as [Hn' Hr'].
    split; [now rewrite Hn | auto]. }
  intros a ops; unfold GetName, IsRequired.
  destruct (H ops a) as [Hn Hr].
  repeat split; auto.
  - now destruct (H ops (WithName (Argument.name_ a))).
  - now apply (H ops (Required a)).
Qed.

(* ------------------------------------------------------------------ *)
(** ** From the command line to the answers *)

Lemma scan_tokens_cons tok rest args :
  scan_tokens (tok :: rest) args
  = if triggers_help tok then Exits 0
    else if overruns tok (hd_error rest) args then OutOfBounds
         else scan_tokens rest (token_edit tok (hd_error rest) args).
Proof. reflexivity. Qed.

Lemma scan_tokens_prefix pre :
  forall rest args l,
    scan_tokens (pre ++ rest) args = Returns l ->
    exists args1,
      map decl args1 = map decl args /\ scan_tokens rest args1 = Returns l.
Proof.
  induction pre as [| t pre IH]; intros rest args l H.
  - exists args; now split.
  - cbn [app scan_tokens] in H.
    destruct (triggers_help t); [discriminate |].
    destruct (overruns t (hd_error (pre ++ rest)) args); [discriminate |].
    destruct (IH _ _ _ H) as (args1 & Hd & Hs).
    exists args1; split; [| exact Hs].
    etransitivity; [exact Hd | apply map_decl_token_edit].
Qed.

Lemma decl_split pa a pb :
  forall args1,
    map decl args1 = map decl (pa ++ a :: pb) ->
    exists pa1 a1 pb1,
      args1 = pa1 ++ a1 :: pb1
      /\ map decl pa1 = map decl pa /\ decl a1 = decl a.
Proof.
  induction pa as [| b pa IH]; intros [| x args1] H; cbn [app map] in H;
    try discriminate H.
  - exists [], x, args1; repeat split.
    exact (f_equal (hd (decl x)) H).
  - pose proof (f_equal (hd (decl x)) H) as Hx; cbn [hd] in Hx.
    pose proof (f_equal (@tl _) H) as Hrest; cbn [tl] in Hrest.
    destruct (IH _ Hrest) as (pa1 & a1 & pb1 & -> & Hpa & Ha).
    exists (x :: pa1), a1, pb1; repeat split; auto.
    cbn [map]; now rewrite Hx, Hpa.
Qed.

Lemma names_decl tok a a1 : decl a1 = decl a -> names tok a1 = names tok a.
Proof.
  unfold decl, names, GetLong, GetShort; intros H.
  injection H as _ -> -> _ _ _; reflexivity.
Qed.

Lemma token_edit_named tok next pa a pb :
  names tok a = true ->
  next <> None \/ Str.starts_with "--" tok = true ->
  exists pa' pb',
    token_edit tok next (pa ++ a :: pb) = pa' ++ take (or_empty next) a :: pb'
    /\ map decl pa' = map decl pa.
Proof.
  unfold names, token_edit; intros Hn Hnext.
  destruct (Str.starts_with "--" tok).
  - destruct (Str.substr 2 tok) as [X |]; [| discriminate].
    apply andb_true_iff in Hn; destruct Hn as [Hz Hl].
    apply negb_true_iff in Hz; rewrite Hz.
    exists (map (long_edit X (or_empty next)) pa),
      (map (long_edit X (or_empty next)) pb).
    rewrite map_app; cbn [map]; unfold long_edit at 2; rewrite Hl.
    split; [reflexivity | apply map_decl_pointwise, decl_long_edit].
  - destruct (Str.starts_with "-" tok); [| discriminate].
    destruct (Str.at_ tok 1) as [c |]; [| discriminate].
    apply andb_true_iff in Hn; destruct Hn as [Hz Hs].
    apply negb_true_iff in Hz; rewrite Hz.
    destruct next as [v |].
    2: { destruct Hnext as [H | H]; [now elim H | discriminate]. }
    exists (map (short_edit c v) pa), (map (short_edit c v) pb).
    rewrite map_app; cbn [map or_empty]; unfold short_edit at 2; rewrite Hs.
    split; [reflexivity | apply map_decl_pointwise, decl_short_edit].
Qed.

Lemma find_named_first n pre pa a' post :
  map decl pre = map decl pa ->
  Forall (fun b => GetName b <> n) pa ->
  named n a' = true ->
  find (named n) (pre ++ a' :: post) = Some a'.
Proof.
  revert pa; induction pre as [| b pre IH]; intros [| c pa] Hd Hall Ha;
    cbn [map] in Hd; try discriminate Hd; cbn [app find].
  - now rewrite Ha.
  - assert (Hb : named n b = false /\ map decl pre = map decl pa).
    { inversion Hall as [| ? ? Hc _]; subst.
      unfold decl in Hd; injection Hd as Hname _ _ _ _ _ Hrest.
      split; [| exact Hrest].
      unfold named, GetName in *; rewrite Hname.
      now apply String.eqb_neq. }
    destruct Hb as [-> Hrest].
    inversion Hall; subst; now apply (IH pa).
Qed.

(** X17: the value for an argument is the token after its name: when
    [Parse] returns, an argument that expects a value and is named by a
    token (by its long form after two dashes or its short form after
    one) holds the token that follows, provided no later token names
    the argument again; and [Get] answers with it under the argument's
    name when the value is not empty and no argument registered earlier
    has the same name. *)
Theorem value_follows_its_name :
  forall (self self' : Args.t) (w w' : io)
         (before after : list string) (tok v : string)
         (pa pb : list Argument.t) (a : Argument.t),
    well_formed self ->
    Parse self w = (Returns self', w') ->
    raw_args_ self = before ++ tok :: v :: after ->
    args_ self = pa ++ a :: pb ->
    names tok a = true -> IsExpectingValue a = true ->
    Forall (fun t => names t a = false) (v :: after) ->
    exists a',
      nth_error (args_ self') (List.length pa) = Some a'
      /\ decl a' = decl a /\ value_ a' = v
      /\ (v <> EmptyString ->
          Forall (fun b => GetName b <> GetName a) pa ->
          Get self' (GetName a) = Some v).
Proof.
  intros self self' w w' before after tok v pa pb a Hwf HP Hraw Hargs
         Hn He Hlater.
  rewrite (Parse_well_formed self w Hwf) in HP.
  destruct (scan_tokens (raw_args_ self) (args_ self)) as [l | | |] eqn:El;
    try discriminate HP.
  assert (Hself : self' = set_args self l).
  { destruct (find missing l) as [b |]; [| now injection HP].
    exfalso; revert HP; unfold bind, Terminate.
    destruct (terminateBy_ _); discriminate. }
  subst self'; cbn [args_ set_args]; clear HP.
  rewrite Hraw in El.
  destruct (scan_tokens_prefix _ _ _ _ El) as (args1 & Hd1 & Hs1).
  rewrite Hargs in Hd1.
  destruct (decl_split _ _ _ _ Hd1) as (pa1 & a1 & pb1 & -> & Hpa1 & Ha1).
  rewrite scan_tokens_cons in Hs1; cbn [hd_error] in Hs1.
  destruct (triggers_help tok); [discriminate |].
  cbn [overruns] in Hs1.
  assert (Hn1 : names tok a1 = true) by now rewrite (names_decl _ _ _ Ha1).
  destruct (token_edit_named tok (Some v) pa1 a1 pb1 Hn1)
    as (pa2 & pb2 & E2 & Hpa2); [left; discriminate |].
  cbn [or_empty] in E2.
  assert (Hlater2 : Forall (fun t => names t (take v a1) = false)
                           (v :: after)).
  { eapply Forall_impl; [| exact Hlater].
    intros t Ht; rewrite (names_decl t a (take v a1)); [exact Ht |].
    now rewrite decl_take. }
  destruct (scan_tokens_untouched _ _ _ _ _ _ Hs1 E2 Hlater2)
    as (pa3 & pb3 & -> & Hpa3).
  assert (Hdecl : map decl pa3 = map decl pa) by congruence.
  assert (Hlen : List.length pa3 = List.length pa).
  { apply (f_equal (@List.length _)) in Hdecl.
    now rewrite !length_map in Hdecl. }
  assert (He1 : IsExpectingValue a1 = true).
  { unfold IsExpectingValue, decl in *; injection Ha1 as _ _ _ _ -> _.
    exact He. }
  exists (take v a1); repeat split.
  - rewrite <- Hlen, nth_error_app2, Nat.sub_diag by lia; reflexivity.
  - now rewrite decl_take.
  - now apply take_value.
  - intros Hv Hfirst; unfold Get; rewrite Get_loop_find.
    cbn [args_ set_args].
    rewrite (find_named_first (GetName a) pa3 pa _ _ Hdecl Hfirst).
    + apply GetValue_some; split; [now apply take_value | exact Hv].
    + unfold named, GetName.
      assert (Hname : Argument.name_ (take v a1) = Argument.name_ a).
      { pose proof (decl_take v a1) as Hd; unfold decl in Hd, Ha1.
        injection Hd as -> _ _ _ _ _; now injection Ha1. }
      rewrite Hname; apply String.eqb_refl.
Qed.

Lemma value_follows_its_name_witness :
  exists a',
    nth_error (args_ example_1_parsed) (List.length (@nil Argument.t))
    = Some a'
    /\ decl a' = decl (ExpectsValue (SetLong "name" (WithName "name")))
    /\ value_ a' = "Alice"%string
    /\ ("Alice"%string <> EmptyString ->
        Forall (fun b => GetName b
                         <> GetName (ExpectsValue
                                       (SetLong "name" (WithName "name"))))
               [] ->
        Get example_1_parsed
            (GetName (ExpectsValue (SetLong "name" (WithName "name"))))
        = Some "Alice"%string).
Proof.
  apply (value_follows_its_name example_1 example_1_parsed no_output
           no_output [] ["--verbose"%string] "--name" "Alice" []
           [SetLong "verbose" (WithName "verbose")]).
  - split; [reflexivity | unfold INT_MAX; cbn; lia].
  - reflexivity.
  - reflexivity.
  - reflexivity.
  - reflexivity.
  - reflexivity.
  - repeat constructor.
Defined.

Lemma only_set_trans a b c : only_set a b -> only_set b c -> only_set a c.
Proof.
  unfold only_set; intros (Hd & Hg & Hv & Ho) (Hd' & Hg' & Hv' & Ho').
  assert (He : IsExpectingValue b = IsExpectingValue a).
  { unfold IsExpectingValue, decl in *; now injection Hd. }
  assert (Hopt : Argument.IsOption b = Argument.IsOption a).
  { unfold Argument.IsOption, decl in *; now injection Hd. }
  repeat split.
  - congruence.
  - auto.
  - intros H; rewrite Hv', Hv; congruence.
  - intros H; rewrite Ho', Ho; congruence.
Qed.

Lemma Forall2_only_set_trans l1 :
  forall l2 l3,
    Forall2 only_set l1 l2 -> Forall2 only_set l2 l3 ->
    Forall2 only_set l1 l3.
Proof.
  induction l1 as [| a l1 IH]; intros l2 l3 H12 H23;
    inversion H12; subst; inversion H23; subst; constructor.
  - eapply only_set_trans; eassumption.
  - eapply IH; eassumption.
Qed.

Lemma Forall2_only_set_decl l l' :
  Forall2 only_set l l' -> map decl l' = map decl l.
Proof.
  intros H; induction H as [| a a' l l' [Hd _] _ IH]; [reflexivity |].
  cbn [map]; now rewrite Hd, IH.
Qed.

Lemma token_edit_only_set tok next args :
  Forall2 only_set args (token_edit tok next args).
Proof.
  assert (Hlike : forall f, plan_like f -> Forall2 only_set args (f args)).
  { intros f [pf Hf]; rewrite Hf; apply apply_plan_only_set. }
  unfold token_edit.
  destruct (Str.starts_with "--" tok).
  - destruct (Str.substr 2 tok) as [X |];
      [| exact (Hlike _ plan_like_id)].
    destruct (Nat.eqb _ _); [exact (Hlike _ plan_like_id) |].
    exact (Hlike _ (plan_like_long X _)).
  - destruct (Str.starts_with "-" tok); [| exact (Hlike _ plan_like_id)].
    destruct (Str.at_ tok 1) as [c |]; [| exact (Hlike _ plan_like_id)].
    destruct (Ascii.eqb c Str.nul); [exact (Hlike _ plan_like_id) |].
    destruct next as [v |].
    + exact (Hlike _ (plan_like_short c v)).
    + exact (Hlike _ (plan_like_abort c)).
Qed.

Lemma scan_tokens_only_set toks :
  forall args l,
    scan_tokens toks args = Returns l -> Forall2 only_set args l.
Proof.
  induction toks as [| tok rest IH]; intros args l H.
  - injection H as <-; apply (apply_plan_only_set []).
  - rewrite scan_tokens_cons in H.
    destruct (triggers_help tok); [discriminate |].
    destruct (overruns tok (hd_error rest) args); [discriminate |].
    eapply Forall2_only_set_trans; [apply token_edit_only_set |].
    exact (IH _ _ H).
Qed.

(** X18: an option named on the command line is given: when [Parse]
    returns, an option named by a token that is a long form, or that is
    not the last token, has its given-flag set, and [IsGiven] answers
    true under the option's name when no argument registered earlier has
    the same name. *)
Theorem named_flag_is_given :
  forall (self self' : Args.t) (w w' : io)
         (before after : list string) (tok : string)
         (pa pb : list Argument.t) (a : Argument.t),
    well_formed self ->
    Parse self w = (Returns self', w') ->
    raw_args_ self = before ++ tok :: after ->
    args_ self = pa ++ a :: pb ->
    names tok a = true -> Argument.IsOption a = true ->
    after <> [] \/ Str.starts_with "--" tok = true ->
    exists a',
      nth_error (args_ self') (List.length pa) = Some a'
      /\ decl a' = decl a /\ is_given_ a' = true
      /\ (Forall (fun b => GetName b <> GetName a) pa ->
          Args.IsGiven self' (GetName a) = true).
Proof.
  intros self self' w w' before after tok pa pb a Hwf HP Hraw Hargs
         Hn Ho Hpos.
  rewrite (Parse_well_formed self w Hwf) in HP.
  destruct (scan_tokens (raw_args_ self) (args_ self)) as [l | | |] eqn:El;
    try discriminate HP.
  assert (Hself : self' = set_args self l).
  { destruct (find missing l) as [b |]; [| now injection HP].
    exfalso; revert HP; unfold bind, Terminate.
    destruct (terminateBy_ _); discriminate. }
  subst self'; cbn [args_ set_args]; clear HP.
  rewrite Hraw in El.
  destruct (scan_tokens_prefix _ _ _ _ El) as (args1 & Hd1 & Hs1).
  rewrite Hargs in Hd1.
  destruct (decl_split _ _ _ _ Hd1) as (pa1 & a1 & pb1 & -> & Hpa1 & Ha1).
  rewrite scan_tokens_cons in Hs1.
  destruct (triggers_help tok); [discriminate |].
  destruct (overruns tok (hd_error after) (pa1 ++ a1 :: pb1));
    [discriminate |].
  assert (Hn1 : names tok a1 = true) by now rewrite (names_decl _ _ _ Ha1).
  destruct (token_edit_named tok (hd_error after) pa1 a1 pb1 Hn1)
    as (pa2 & pb2 & E2 & Hpa2).
  { destruct Hpos as [H | H]; [left | now right].
    destruct after; [now elim H | discriminate]. }
  rewrite E2 in Hs1.
  apply scan_tokens_only_set in Hs1.
  apply Forall2_app_inv_l in Hs1.
  destruct Hs1 as (pa3 & rest3 & H3 & Hrest3 & ->).
  inversion Hrest3 as [| ? a' ? pb3 Haa _]; subst.
  pose proof (Forall2_only_set_decl _ _ H3) as Hd3.
  assert (Hdecl : map decl pa3 = map decl pa) by congruence.
  assert (Hlen : List.length pa3 = List.length pa).
  { apply (f_equal (@List.length _)) in Hdecl.
    now rewrite !length_map in Hdecl. }
  assert (Ho1 : Argument.IsOption a1 = true).
  { unfold Argument.IsOption, decl in *; injection Ha1 as _ _ _ _ _ ->.
    exact Ho. }
  destruct Haa as (Hda & Hga & _).
  assert (Hgiven : is_given_ a' = true).
  { apply Hga; now apply take_given. }
  assert (Hdecl' : decl a' = decl a).
  { now rewrite Hda, decl_take. }
  exists a'; repeat split; auto.
  - rewrite <- Hlen, nth_error_app2, Nat.sub_diag by lia; reflexivity.
  - intros Hfirst; unfold Args.IsGiven; rewrite IsGiven_loop_find.
    cbn [args_ set_args].
    rewrite (find_named_first (GetName a) pa3 pa a' pb3 Hdecl Hfirst).
    + unfold Argument.IsOption, Argument.IsGiven.
      rewrite Hgiven.
      unfold decl in Hdecl'; injection Hdecl' as _ _ _ _ _ ->.
      unfold Argument.IsOption in Ho; now rewrite Ho.
    + unfold named, GetName.
      unfold decl in Hdecl'; injection Hdecl' as -> _ _ _ _ _.
      apply String.eqb_refl.
Qed.

Lemma named_flag_is_given_witness :
  exists a',
    nth_error (args_ example_1_parsed)
      (List.length [ExpectsValue (SetLong "name" (WithName "name"))])
    = Some a'
    /\ decl a' = decl (SetLong "verbose" (WithName "verbose"))
    /\ is_given_ a' = true
    /\ (Forall (fun b => GetName b
                         <> GetName (SetLong "verbose" (WithName "verbose")))
               [ExpectsValue (SetLong "name" (WithName "name"))] ->
        Args.IsGiven example_1_parsed
          (GetName (SetLong "verbose" (WithName "verbose"))) = true).
Proof.
  apply (named_flag_is_given example_1 example_1_parsed no_output no_output
           ["--name"%string; "Alice"%string] [] "--verbose"
           [ExpectsValue (SetLong "name" (WithName "name"))] []).
  - split; [reflexivity | unfold INT_MAX; cbn; lia].
  - reflexivity.
  - reflexivity.
  - reflexivity.
  - reflexivity.
  - reflexivity.
  - right; reflexivity.
Defined.
